(** * PySenku: the game engine of a peg-solitaire ("Senku") program

    A shallow embedding of [pysenku/util/stack.py], [pysenku/model/move.py]
    and [pysenku/model/senkugame.py], followed by the properties of the
    engine: bounded undo history, move legality, execution and undo of
    moves, end-of-game detection, restart and replay of the state.

    Conventions of the embedding.
    - A coordinate is a Python tuple of two ints: a pair of [Z].
    - The board is a Python [dict] from coordinates to booleans: a
      [gmap (Z * Z) bool].  The iteration order of a dict is left open by
      the source; wherever the engine iterates over the board the
      embedding iterates over [map_to_list], and the theorems do not
      depend on that order.
    - Python exceptions are the constructors of [exn]; a method that can
      raise returns a [result].
    - Methods of the game that mutate it or notify observers live in the
      monad [M]: state passing over [SenkuGame], a log of the calls of
      [Subject.notify], and exceptions that keep the state and the log
      reached when they were raised (as a Python exception does). *)

From Stdlib Require Import ZArith Lia Bool.
From stdpp Require Import base list strings gmap fin_maps.

Local Open Scope Z_scope.

(** A coordinate [(row, column)]. *)
Abbreviation cell := (Z * Z)%type.

(** ** Exceptions *)

(** [IndexError]: [list.pop] on an empty list.  [KeyError k]: lookup of a
    key [k] that a dict does not hold. *)
Inductive exn : Type :=
  | IndexError
  | KeyError (k : cell).

Inductive result (A : Type) : Type :=
  | Ok (a : A)
  | Raise (e : exn).
Arguments Ok {A} a.
Arguments Raise {A} e.

Definition result_bind {A B : Type} (r : result A) (f : A → result B) : result B :=
  match r with
  | Ok a => f a
  | Raise e => Raise e
  end.

Notation "'try' x := r 'in' k" := (result_bind r (λ x, k))
  (at level 10, x name, r at level 100, k at level 200, only parsing).

(** ** util/stack.py *)

Module Stack.
Section DynamicBoundedStack.
Context {A : Type}.

(** [_data]: the internal storage, oldest element first.
    [_size]: the maximum number of elements. *)
Record DynamicBoundedStack : Type := mkStack {
  _data : list A;
  _size : Z
}.

Definition __init__ (size : Z) : DynamicBoundedStack :=
  {| _data := []; _size := size |}.

(** [len(self._data) == self._size] *)
Definition is_full (st : DynamicBoundedStack) : bool :=
  Z.of_nat (length (_data st)) =? _size st.

(** [not self._data] *)
Definition is_empty (st : DynamicBoundedStack) : bool :=
  match _data st with
  | [] => true
  | _ :: _ => false
  end.

Definition make_empty (st : DynamicBoundedStack) : DynamicBoundedStack :=
  {| _data := []; _size := _size st |}.

(** Python's [l.pop(0)]: removes and returns the first element. *)
Definition list_pop0 (l : list A) : result (A * list A) :=
  match l with
  | [] => Raise IndexError
  | x :: l' => Ok (x, l')
  end.

(** Python's [l.pop()]: removes and returns the last element. *)
Fixpoint list_pop (l : list A) : result (A * list A) :=
  match l with
  | [] => Raise IndexError
  | x :: l' =>
      match l' with
      | [] => Ok (x, [])
      | _ :: _ =>
          match list_pop l' with
          | Ok (y, r) => Ok (y, x :: r)
          | Raise e => Raise e
          end
      end
  end.

(** [if self.is_full(): self._data.pop(0)] then [self._data.append(elem)] *)
Definition push (st : DynamicBoundedStack) (elem : A) : result DynamicBoundedStack :=
  try d :=
    (if is_full st
     then try xr := list_pop0 (_data st) in Ok (snd xr)
     else Ok (_data st)) in
  Ok {| _data := d ++ [elem]; _size := _size st |}.

(** [return self._data.pop()] *)
Definition pop (st : DynamicBoundedStack) : result (A * DynamicBoundedStack) :=
  try xr := list_pop (_data st) in
  Ok (fst xr, {| _data := snd xr; _size := _size st |}).

(** A run of pushes with nothing in between; it stops at the first
    push that raises. *)
Fixpoint push_all (st : DynamicBoundedStack) (xs : list A) : result DynamicBoundedStack :=
  match xs with
  | [] => Ok st
  | x :: xs' => try st' := push st x in push_all st' xs'
  end.

End DynamicBoundedStack.
Arguments DynamicBoundedStack A : clear implicits.
End Stack.

Import Stack.

(** ** model/move.py: the data of a move *)

(** [avg]: the tuple of the averages of the elements of [a] and [b].
    Python 2's [/] on ints is floor division, which is [Z.div]; whenever
    [check_distance] holds both sums are even and the division is exact
    (Python 3's true division then gives an equal key). *)
Definition avg (a b : cell) : cell :=
  ((a.1 + b.1) / 2, (a.2 + b.2) / 2).

(** A command for Senku moves.  The field [_game] of the source is the
    one game of the state monad below. *)
Record Move : Type := mkMove {
  _origin : cell;
  _mid : cell;
  _dest : cell
}.

(** [Move.__init__] *)
Definition Move_init (orig dest : cell) : Move :=
  {| _origin := orig; _mid := avg orig dest; _dest := dest |}.

(** ** model/senkugame.py *)

Definition MAX_UNDO_ACTIONS : Z := 5.
Definition DEFAULT_GAME_TRACKING : bool := true.

Record SenkuGame : Type := mkGame {
  _board : gmap cell bool;
  _undo_stack : DynamicBoundedStack Move;
  _with_tracking : bool
}.

(** One call of [Subject.notify(aspect, value)].  The value of
    [UNDO_STACK] is the undo stack as it is when the observers are called. *)
Inductive event : Type :=
  | CELL_ON (c : cell)
  | CELL_OFF (c : cell)
  | UNDO_STACK (st : DynamicBoundedStack Move)
  | GAME_OVER (cells_left : Z).

(** *** The monad of the methods of the game *)

Definition M (A : Type) : Type :=
  SenkuGame → SenkuGame * list event * result A.

Definition ret {A : Type} (a : A) : M A := λ g, (g, [], Ok a).

Definition bind {A B : Type} (m : M A) (f : A → M B) : M B :=
  λ g,
    match m g with
    | (g1, log1, Ok a) =>
        match f a g1 with
        | (g2, log2, r) => (g2, log1 ++ log2, r)
        end
    | (g1, log1, Raise e) => (g1, log1, Raise e)
    end.

Declare Scope game_scope.
Delimit Scope game_scope with game.
Notation "x ← y ; z" := (bind y (λ x, z))
  (at level 20, y at level 100, z at level 200, only parsing) : game_scope.
Notation "y ;; z" := (bind y (λ _, z))
  (at level 100, z at level 200, only parsing, right associativity) : game_scope.
Local Open Scope game_scope.

(** Nothing to do: the method goes on, or returns [None]. *)
Definition pass : M unit := ret tt.

Definition lift {A : Type} (r : result A) : M A := λ g, (g, [], r).

Definition notify (ev : event) : M unit := λ g, (g, [ev], Ok tt).

Definition get_board : M (gmap cell bool) := λ g, (g, [], Ok (_board g)).

Definition get_undo_stack : M (DynamicBoundedStack Move) :=
  λ g, (g, [], Ok (_undo_stack g)).

Definition get_tracking : M bool := λ g, (g, [], Ok (_with_tracking g)).

(** [self.get_board()[cell] = v] *)
Definition board_setitem (c : cell) (v : bool) : M unit :=
  λ g, ({| _board := <[c := v]> (_board g);
           _undo_stack := _undo_stack g;
           _with_tracking := _with_tracking g |}, [], Ok tt).

Definition put_undo_stack (st : DynamicBoundedStack Move) : M unit :=
  λ g, ({| _board := _board g;
           _undo_stack := st;
           _with_tracking := _with_tracking g |}, [], Ok tt).

Definition set_tracking (track : bool) : M unit :=
  λ g, ({| _board := _board g;
           _undo_stack := _undo_stack g;
           _with_tracking := track |}, [], Ok tt).

(** [for x in xs: body(x)] *)
Fixpoint for_each {X : Type} (xs : list X) (body : X → M unit) : M unit :=
  match xs with
  | [] => pass
  | x :: xs' => body x ;; for_each xs' body
  end.

(** The state, the log and the result of a call. *)
Definition state_of {A : Type} (o : SenkuGame * list event * result A) : SenkuGame := o.1.1.
Definition log_of {A : Type} (o : SenkuGame * list event * result A) : list event := o.1.2.
Definition result_of {A : Type} (o : SenkuGame * list event * result A) : result A := o.2.

(** *** Cells *)

Definition fill_cell (c : cell) : M unit :=
  board_setitem c true ;; notify (CELL_ON c).

Definition empty_cell (c : cell) : M unit :=
  board_setitem c false ;; notify (CELL_OFF c).

(** [range(n)] *)
Definition range (n : nat) : list Z := map Z.of_nat (seq 0 n).

Definition fill_board : M unit :=
  for_each [0; 1; 5; 6] (λ x, for_each [2; 3; 4] (λ y, fill_cell (x, y))) ;;
  for_each [2; 3; 4] (λ x, for_each (range 7) (λ y, fill_cell (x, y))) ;;
  empty_cell (3, 3).

(** *** Legality of a move *)

Definition check_distance (orig dest : cell) : bool :=
  ((Z.abs (orig.1 - dest.1) =? 2) && (orig.2 =? dest.2))
  || ((Z.abs (orig.2 - dest.2) =? 2) && (orig.1 =? dest.1)).

(** [board[k]] *)
Definition getitem (b : gmap cell bool) (k : cell) : result bool :=
  match b !! k with
  | Some v => Ok v
  | None => Raise (KeyError k)
  end.

(** [board[orig] and not board[dest] and board[avg(orig, dest)]]: the
    operands are looked up from left to right, and only as far as the
    first false one. *)
Definition board_check_cells (b : gmap cell bool) (orig dest : cell) : result bool :=
  try o := getitem b orig in
  if o then
    try d := getitem b dest in
    if negb d then getitem b (avg orig dest) else Ok false
  else Ok false.

Definition check_cells (orig dest : cell) : M bool :=
  b ← get_board; lift (board_check_cells b orig dest).

(** *** End of the game *)

(** The inner loop of [check_end]: [true] when a destination for [pos1]
    is found (the method then returns). *)
Fixpoint scan_dests (b : gmap cell bool) (pos1 : cell) (keys : list cell) : result bool :=
  match keys with
  | [] => Ok false
  | pos2 :: keys' =>
      try found :=
        (if check_distance pos1 pos2 then board_check_cells b pos1 pos2 else Ok false) in
      if found then Ok true else scan_dests b pos1 keys'
  end.

(** The outer loop of [check_end] over [board.items()]: [None] when the
    method returned from inside the loop, [Some cells_left] when the loop
    ran to its end. *)
Fixpoint scan_items (b : gmap cell bool) (keys : list cell)
    (items : list (cell * bool)) (cells_left : Z) : result (option Z) :=
  match items with
  | [] => Ok (Some cells_left)
  | (pos1, c) :: items' =>
      if c then
        try found := scan_dests b pos1 keys in
        if found then Ok None else scan_items b keys items' (cells_left + 1)
      else scan_items b keys items' cells_left
  end.

Definition check_end : M unit :=
  b ← get_board;
  r ← lift (scan_items b (map_to_list b).*1 (map_to_list b) 0);
  match r with
  | None => pass
  | Some cells_left => notify (GAME_OVER cells_left)
  end.

(** *** Moves *)

Definition movement_done (command : Move) : M unit :=
  st ← get_undo_stack;
  st' ← lift (push st command);
  put_undo_stack st' ;;
  notify (UNDO_STACK st') ;;
  track ← get_tracking;
  if track then check_end else pass.

(** [Move.execute] *)
Definition Move_execute (self : Move) : M unit :=
  let orig := _origin self in
  let dest := _dest self in
  if check_distance orig dest then
    ok ← check_cells orig dest;
    if ok then
      empty_cell orig ;;
      fill_cell dest ;;
      empty_cell (_mid self) ;;
      movement_done self
    else pass
  else pass.

(** [Move.undo] *)
Definition Move_undo (self : Move) : M unit :=
  fill_cell (_origin self) ;;
  fill_cell (_mid self) ;;
  empty_cell (_dest self).

(** [SenkuGame.undo] *)
Definition undo : M unit :=
  st ← get_undo_stack;
  popped ← lift (pop st);
  put_undo_stack popped.2 ;;
  Move_undo popped.1 ;;
  st' ← get_undo_stack;
  notify (UNDO_STACK st').

Definition get_all_changes : M unit :=
  st ← get_undo_stack;
  notify (UNDO_STACK st) ;;
  b ← get_board;
  for_each (map_to_list b).*1 (λ k,
    v ← (b' ← get_board; lift (getitem b' k));
    if v then notify (CELL_ON k) else notify (CELL_OFF k)).

Definition restart : M unit :=
  fill_board ;;
  st ← get_undo_stack;
  put_undo_stack (make_empty st) ;;
  st' ← get_undo_stack;
  notify (UNDO_STACK st').

(** [SenkuGame.__init__]: the board starts as the empty dict and is
    filled by [fill_board]; the stack and the tracking flag are set
    afterwards, and [fill_board] reads neither. *)
Definition SenkuGame_init : SenkuGame * list event * result unit :=
  fill_board {| _board := ∅;
                _undo_stack := __init__ MAX_UNDO_ACTIONS;
                _with_tracking := DEFAULT_GAME_TRACKING |}.

Definition new_game : SenkuGame := state_of SenkuGame_init.

(** *** The calls an observer or a user interface makes *)

Inductive op : Type :=
  | AttemptMove (orig dest : cell)
  | Undo
  | Restart
  | SetTracking (track : bool)
  | ReplayAllState
  | CheckEnd.

Definition perform (o : op) : M unit :=
  match o with
  | AttemptMove orig dest => Move_execute (Move_init orig dest)
  | Undo => undo
  | Restart => restart
  | SetTracking track => set_tracking track
  | ReplayAllState => get_all_changes
  | CheckEnd => check_end
  end.

(** The game after a sequence of calls; a call that raises leaves the
    game as it was when the exception was raised, and the next call goes
    on from there. *)
Definition run_ops (ops : list op) (g : SenkuGame) : SenkuGame :=
  foldl (λ g' o, state_of (perform o g')) g ops.

Inductive reachable : SenkuGame → Prop :=
  | reachable_new : reachable new_game
  | reachable_step g o : reachable g → reachable (state_of (perform o g)).

(** ** Vocabulary of the specification *)

(** The 33 cells of the cross: rows 2..4 with columns 0..6, and rows
    0, 1, 5, 6 with columns 2..4. *)
Definition cross_cells : gset cell :=
  list_to_set (list_prod [2; 3; 4] [0; 1; 2; 3; 4; 5; 6])
  ∪ list_to_set (list_prod [0; 1; 5; 6] [2; 3; 4]).

(** The same set as a test on the coordinates. *)
Definition in_cross (p : cell) : bool :=
  ((2 <=? p.1) && (p.1 <=? 4) && (0 <=? p.2) && (p.2 <=? 6))
  || ((0 <=? p.1) && (p.1 <=? 6) && (2 <=? p.2) && (p.2 <=? 4)).

(** The initial layout: every cell of the cross is occupied but the
    centre. *)
Definition initial_layout (p : cell) : option bool :=
  if in_cross p then Some (negb (bool_decide (p = (3, 3)))) else None.

(** A jump from [orig] to [dest] passes both checks on the board [b]. *)
Definition legal_move (b : gmap cell bool) (orig dest : cell) : Prop :=
  check_distance orig dest = true ∧ board_check_cells b orig dest = Ok true.

Definition has_legal_move (b : gmap cell bool) : Prop :=
  ∃ orig dest, legal_move b orig dest.

(** The number of occupied cells of a board. *)
Definition cells_remaining (b : gmap cell bool) : Z :=
  Z.of_nat (size (filter (λ kv : cell * bool, kv.2 = true) b)).

(** The notification that [get_all_changes] sends for the cell [k]. *)
Definition cell_event (b : gmap cell bool) (k : cell) : event :=
  match b !! k with
  | Some true => CELL_ON k
  | _ => CELL_OFF k
  end.

(** The notifications of the end of the game. *)
Definition is_game_over (ev : event) : bool :=
  match ev with
  | GAME_OVER _ => true
  | _ => false
  end.

(** The three cells of a move are cells of the cross. *)
Definition move_on_board (m : Move) : Prop :=
  _origin m ∈ cross_cells ∧ _mid m ∈ cross_cells ∧ _dest m ∈ cross_cells.

(** What every game keeps from its construction on. *)
Record game_inv (g : SenkuGame) : Prop := mkInv {
  inv_dom : dom (_board g) = cross_cells;
  inv_moves : Forall move_on_board (_data (_undo_stack g));
  inv_size : _size (_undo_stack g) = MAX_UNDO_ACTIONS
}.

(** The shortest play that ends the game: six jumps, 26 cells left. *)
Definition short_game : list op :=
  [AttemptMove (3, 1) (3, 3); AttemptMove (3, 4) (3, 2);
   AttemptMove (1, 3) (3, 3); AttemptMove (4, 3) (2, 3);
   AttemptMove (3, 6) (3, 4); AttemptMove (6, 3) (4, 3)].

(** ** Vocabulary for the use of the stack and of the undo history *)

(** The calls a user of the stack makes. *)
Inductive stack_op (A : Type) : Type :=
  | SPush (x : A)
  | SPop
  | SMakeEmpty.
Arguments SPush {A} x.
Arguments SPop {A}.
Arguments SMakeEmpty {A}.

(** One call on a stack; a call that raises leaves the stack as it is
    ([push] and [pop] raise before they change [_data]). *)
Definition stack_step {A : Type} (st : DynamicBoundedStack A) (o : stack_op A)
    : DynamicBoundedStack A :=
  match o with
  | SPush x => match push st x with Ok st' => st' | Raise _ => st end
  | SPop => match pop st with Ok xr => xr.2 | Raise _ => st end
  | SMakeEmpty => make_empty st
  end.

(** [n] calls of [pop] in a row; the elements in the order they come out. *)
Fixpoint pop_n {A : Type} (n : nat) (st : DynamicBoundedStack A)
    : result (list A * DynamicBoundedStack A) :=
  match n with
  | O => Ok ([], st)
  | S n' =>
      try xr := pop st in
      try rest := pop_n n' xr.2 in
      Ok (xr.1 :: rest.1, rest.2)
  end.

(** The board that [Move.undo] of [m] leaves. *)
Definition board_after_undo (b : gmap cell bool) (m : Move) : gmap cell bool :=
  <[_dest m := false]> (<[_mid m := true]> (<[_origin m := true]> b)).

(** The board [b] is as the jump [m] leaves it: origin and midpoint empty,
    destination occupied. *)
Definition move_done (b : gmap cell bool) (m : Move) : Prop :=
  check_distance (_origin m) (_dest m) = true
  ∧ _mid m = avg (_origin m) (_dest m)
  ∧ b !! _origin m = Some false
  ∧ b !! _mid m = Some false
  ∧ b !! _dest m = Some true.

(** The moves, newest first, can be taken back one after the other. *)
Fixpoint unwinds (b : gmap cell bool) (newest_first : list Move) : Prop :=
  match newest_first with
  | [] => True
  | m :: older => move_done b m ∧ unwinds (board_after_undo b m) older
  end.

(** What every game keeps about its undo stack and the number of pegs. *)
Record history_inv (g : SenkuGame) : Prop := mkHistoryInv {
  hist_unwinds : unwinds (_board g) (rev (_data (_undo_stack g)));
  hist_length : Z.of_nat (length (_data (_undo_stack g))) ≤ MAX_UNDO_ACTIONS;
  hist_pegs : cells_remaining (_board g)
              + Z.of_nat (length (_data (_undo_stack g))) ≤ 32;
  hist_peg : 1 ≤ cells_remaining (_board g)
}.

(** ** util/observer.py *)

Module Observer.

(** [KeyError a]: the dict of observers has no aspect [a].
    [ValueError]: [list.remove] of an element that is not in the list. *)
Inductive exn : Type :=
  | KeyError (aspect : string)
  | ValueError.

Inductive outcome (A : Type) : Type :=
  | Done (a : A)
  | Raised (e : exn).
Arguments Done {A} a.
Arguments Raised {A} e.

Section Subject.
Context {O V : Type} `{EqDecision O}.

(** The attribute [observers] of a subject: a dict from aspects to lists
    of observers.  An observer is known by its identity ([O]); the call
    [observer.update(aspect, value)] is recorded as a triple, and the
    observers are taken not to raise and not to call the subject back. *)
Definition __init__ : gmap string (list O) := {["all"%string := []]}.

(** [self.observers[aspect]] *)
Definition getlist (observers : gmap string (list O)) (aspect : string)
    : outcome (list O) :=
  match observers !! aspect with
  | Some l => Done l
  | None => Raised (KeyError aspect)
  end.

Definition add_aspect (aspect : string) (observers : gmap string (list O))
    : gmap string (list O) :=
  <[aspect := []]> observers.

(** [add_observer(obj, aspect=None)]; the default [None] is [None]. *)
Definition add_observer (obj : O) (aspect : option string)
    (observers : gmap string (list O)) : outcome (gmap string (list O)) :=
  match aspect with
  | None =>
      match getlist observers "all" with
      | Done l => Done (<["all"%string := l ++ [obj]]> observers)
      | Raised e => Raised e
      end
  | Some a =>
      let observers' :=
        match observers !! a with
        | None => add_aspect a observers
        | Some _ => observers
        end in
      match getlist observers' a with
      | Done l => Done (<[a := l ++ [obj]]> observers')
      | Raised e => Raised e
      end
  end.

(** Python's [l.remove(x)]: removes the first element equal to [x]. *)
Fixpoint list_remove (x : O) (l : list O) : outcome (list O) :=
  match l with
  | [] => Raised ValueError
  | y :: l' =>
      if decide (y = x) then Done l'
      else match list_remove x l' with
           | Done r => Done (y :: r)
           | Raised e => Raised e
           end
  end.

Definition remove_observer (obj : O) (aspect : option string)
    (observers : gmap string (list O)) : outcome (gmap string (list O)) :=
  let a := match aspect with None => "all"%string | Some a => a end in
  match getlist observers a with
  | Done l =>
      match list_remove obj l with
      | Done l' => Done (<[a := l']> observers)
      | Raised e => Raised e
      end
  | Raised e => Raised e
  end.

(** The calls [observer.update(aspect, value)] of one loop over [l]. *)
Definition updates (aspect : string) (value : V) (l : list O)
    : list (O * string * V) :=
  (λ observer, (observer, aspect, value)) <$> l.

(** [notify(aspect, value)]: the dict afterwards, the calls of [update]
    in the order they are made, and the exception if one is raised.  The
    [try] looks the aspect up; its [except KeyError] adds the aspect and
    loops over the list just added; the last loop is over the observers
    of ['all']. *)
Definition notify (aspect : string) (value : V) (observers : gmap string (list O))
    : gmap string (list O) * list (O * string * V) * option exn :=
  let first :=
    match getlist observers aspect with
    | Done l => (observers, Done l)
    | Raised _ => (add_aspect aspect observers,
                   getlist (add_aspect aspect observers) aspect)
    end in
  match first.2 with
  | Raised e => (first.1, [], Some e)
  | Done l =>
      match getlist first.1 "all" with
      | Done l_all =>
          (first.1, updates aspect value l ++ updates aspect value l_all, None)
      | Raised e => (first.1, updates aspect value l, Some e)
      end
  end.

(** The calls a client makes on a subject. *)
Inductive subject_op : Type :=
  | AddObserver (obj : O) (aspect : option string)
  | RemoveObserver (obj : O) (aspect : option string)
  | Notify (aspect : string) (value : V)
  | AddAspect (aspect : string).

(** One call; a call that raises leaves the dict as it was when the
    exception was raised. *)
Definition subject_step (observers : gmap string (list O)) (o : subject_op)
    : gmap string (list O) :=
  match o with
  | AddObserver obj aspect =>
      match add_observer obj aspect observers with
      | Done observers' => observers'
      | Raised _ => observers
      end
  | RemoveObserver obj aspect =>
      match remove_observer obj aspect observers with
      | Done observers' => observers'
      | Raised _ => observers
      end
  | Notify aspect value => (notify aspect value observers).1.1
  | AddAspect aspect => add_aspect aspect observers
  end.

End Subject.
End Observer.

(** ** Observers of the game *)

(** The aspect under which the game notifies an event. *)
Definition aspect_of (ev : event) : string :=
  match ev with
  | CELL_ON _ => "CELL_ON"
  | CELL_OFF _ => "CELL_OFF"
  | UNDO_STACK _ => "UNDO_STACK"
  | GAME_OVER _ => "GAME_OVER"
  end.

(** An observer that keeps a copy of the board: what it does with one
    notification. *)
Definition mirror_board (b : gmap cell bool) (ev : event) : gmap cell bool :=
  match ev with
  | CELL_ON c => <[c := true]> b
  | CELL_OFF c => <[c := false]> b
  | _ => b
  end.

(** An observer that keeps the undo stack it was last notified of. *)
Definition mirror_stack (st : DynamicBoundedStack Move) (ev : event)
    : DynamicBoundedStack Move :=
  match ev with
  | UNDO_STACK st' => st'
  | _ => st
  end.

(** ** ui/uisenku.py: geometry of the board area, the undo button *)

Definition BOARD_RECTANGLE_SIZE : Z := 40.
Definition DIAMETER : Z := 30.
Definition DIST : Z := BOARD_RECTANGLE_SIZE - DIAMETER.

(** [BoardArea.get_position_from_pixels]; [b] is [self._game.get_board()].
    [int(x_coord / BOARD_RECTANGLE_SIZE)] is floor division in Python 2
    and truncated true division in Python 3; on the coordinates of a mouse
    event in the canvas, which are not negative, both are [Z.div]. *)
Definition get_position_from_pixels (b : gmap cell bool) (x_coord y_coord : Z)
    : option cell :=
  let pos_y := x_coord / BOARD_RECTANGLE_SIZE in
  let pos_x := y_coord / BOARD_RECTANGLE_SIZE in
  if decide (is_Some (b !! (pos_x, pos_y))) then Some (pos_x, pos_y) else None.

(** [BoardArea.draw_sel_rect_from_pos]: the arguments
    [(origin_x, origin_y, corner_x, corner_y)] of [create_rectangle]. *)
Definition draw_sel_rect_from_pos (pos : cell) : Z * Z * Z * Z :=
  let origin_x := pos.2 * BOARD_RECTANGLE_SIZE in
  let origin_y := pos.1 * BOARD_RECTANGLE_SIZE in
  let corner_x := origin_x + BOARD_RECTANGLE_SIZE in
  let corner_y := origin_y + BOARD_RECTANGLE_SIZE in
  (origin_x, origin_y, corner_x, corner_y).

(** [BoardArea.draw_circle_from_pos]: the arguments of [create_oval]. *)
Definition draw_circle_from_pos (pos : cell) : Z * Z * Z * Z :=
  let origin_x := pos.2 * BOARD_RECTANGLE_SIZE + DIST in
  let origin_y := pos.1 * BOARD_RECTANGLE_SIZE + DIST in
  let corner_x := origin_x + BOARD_RECTANGLE_SIZE - DIST * 2 in
  let corner_y := origin_y + BOARD_RECTANGLE_SIZE - DIST * 2 in
  (origin_x, origin_y, corner_x, corner_y).

(** [UndoButton.update]: the state of the button, [true] for [NORMAL] and
    [false] for [DISABLED], after a notification of the undo stack. *)
Definition UndoButton_update (value : DynamicBoundedStack Move) : bool :=
  if is_empty value then false else true.

(** The state of the button after the notifications of a call: it changes
    on [UNDO_STACK], the one aspect the button observes. *)
Definition button_after (enabled : bool) (log : list event) : bool :=
  foldl (λ state ev,
    match ev with
    | UNDO_STACK value => UndoButton_update value
    | _ => state
    end) enabled log.

(** The three observers of the user interface. *)
Inductive widget : Type :=
  | UISenku
  | BoardArea
  | UndoButton.

#[global] Instance widget_eq_dec : EqDecision widget.
Proof. solve_decision. Defined.

(** The registrations of [UISenku.__init__], in the order they are made:
    the window itself, then the board area, then the undo button. *)
Definition ui_registrations : list (widget * string) :=
  [(UISenku, "GAME_OVER"); (BoardArea, "CELL_OFF"); (BoardArea, "CELL_ON");
   (UndoButton, "UNDO_STACK")]%string.

Definition ui_observers : gmap string (list widget) :=
  foldl (λ observers reg,
    Observer.subject_step (V := event) observers
      (Observer.AddObserver reg.1 (Some reg.2)))
    Observer.__init__ ui_registrations.

(** * Properties *)

(** ** The bounded stack *)

Section StackFacts.
Context {A : Type}.
Implicit Types (st : DynamicBoundedStack A) (xs : list A).

Lemma list_pop_snoc (l : list A) (x : A) : list_pop (l ++ [x]) = Ok (x, l).
Proof.
  induction l as [|y l IH]; [done|].
  cbn [app list_pop]. rewrite IH.
  by destruct l.
Qed.

Lemma pop_snoc (d : list A) (x : A) (n : Z) :
  pop (mkStack (d ++ [x]) n) = Ok (x, mkStack d n).
Proof. unfold pop. cbn. by rewrite list_pop_snoc. Qed.

Lemma push_not_full st x :
  is_full st = false → push st x = Ok (mkStack (_data st ++ [x]) (_size st)).
Proof. unfold push. by intros ->. Qed.

Lemma push_full st x o rest :
  is_full st = true → _data st = o :: rest →
  push st x = Ok (mkStack (rest ++ [x]) (_size st)).
Proof. unfold push. by intros -> ->. Qed.

(** A full stack of positive capacity holds at least one element. *)
Lemma full_nonempty st :
  0 < _size st → is_full st = true → ∃ o rest, _data st = o :: rest.
Proof.
  unfold is_full. intros Hpos Hfull%Z.eqb_eq.
  destruct (_data st) as [|o rest]; [cbn in Hfull; lia|eauto].
Qed.

(** Pushing into a stack that holds at most its capacity never raises
    and keeps the newest elements. *)
Lemma push_all_keeps_newest xs : ∀ st,
  0 < _size st →
  (length (_data st) ≤ Z.to_nat (_size st))%nat →
  ∃ st', push_all st xs = Ok st'
    ∧ _size st' = _size st
    ∧ _data st' =
        drop (length (_data st ++ xs) - Z.to_nat (_size st)) (_data st ++ xs).
Proof.
  induction xs as [|x xs IH]; intros st Hpos Hlen.
  - exists st. rewrite app_nil_r. split_and!; [done..|].
    by replace (length (_data st) - Z.to_nat (_size st))%nat with 0%nat by lia.
  - cbn [push_all]. destruct (is_full st) eqn:Hfull.
    + destruct (full_nonempty st Hpos Hfull) as (o & rest & Hd).
      rewrite (push_full st x o rest Hfull Hd). cbn [result_bind].
      apply Z.eqb_eq in Hfull. rewrite Hd in Hfull, Hlen. cbn in Hfull, Hlen.
      destruct (IH (mkStack (rest ++ [x]) (_size st))) as (st' & Hrun & Hsz & Hdata);
        [done| cbn; rewrite length_app; cbn; lia |].
      exists st'. split_and!; [done..|].
      rewrite Hdata, Hd. cbn [_data _size].
      rewrite <-(assoc_L (++) rest [x] xs). cbn [app].
      replace (length (o :: rest ++ x :: xs) - Z.to_nat (_size st))%nat
        with (S (length (rest ++ x :: xs) - Z.to_nat (_size st))); [done|].
      cbn [length]. rewrite length_app. cbn [length]. lia.
    + rewrite (push_not_full st x Hfull). cbn [result_bind].
      apply Z.eqb_neq in Hfull.
      destruct (IH (mkStack (_data st ++ [x]) (_size st))) as (st' & Hrun & Hsz & Hdata);
        [done| cbn; rewrite length_app; cbn; lia |].
      exists st'. split_and!; [done..|].
      rewrite Hdata. cbn [_data _size].
      by rewrite <-(assoc_L (++) (_data st) [x] xs).
Qed.

(** C3.  A stack of capacity [N] (a positive integer, as the
    configuration of the engine requires) that receives [N + k] pushes,
    [k >= 1], with no pop in between: no push raises; afterwards the
    stack holds exactly [N] items, the last [N] that were pushed, oldest
    first; and a push into a stack that is at capacity drops the oldest
    item only. *)
Theorem push_beyond_capacity (N : Z) (k : nat) xs :
  0 < N → (1 ≤ k)%nat → length xs = (Z.to_nat N + k)%nat →
  (∃ st, push_all (__init__ N) xs = Ok st
     ∧ _size st = N
     ∧ Z.of_nat (length (_data st)) = N
     ∧ _data st = drop k xs
     ∧ drop k xs = drop (length xs - Z.to_nat N) xs)
  ∧ (∀ st x, _size st = N → is_full st = true →
       ∃ oldest rest, _data st = oldest :: rest
         ∧ push st x = Ok (mkStack (rest ++ [x]) N)).
Proof.
  intros HN Hk Hlen. split.
  - destruct (push_all_keeps_newest xs (__init__ N)) as (st & Hrun & Hsz & Hdata);
      [done | cbn; lia |].
    cbn in Hsz, Hdata.
    replace (length xs - Z.to_nat N)%nat with k in * by lia.
    exists st. split_and!; [done..| |done|done].
    rewrite Hdata, length_drop. lia.
  - intros st x Hsz Hfull.
    destruct (full_nonempty st) as (o & rest & Hd); [lia|done|].
    exists o, rest. split; [done|].
    rewrite <-Hsz. by apply (push_full st x o rest).
Qed.

End StackFacts.

(** With capacity zero the first push raises: [pop(0)] is called on the
    empty list. *)
Lemma push_capacity_zero_raises {A : Type} (x : A) :
  push (__init__ 0) x = Raise IndexError.
Proof. reflexivity. Qed.

(** Five pushes into a stack of capacity three. *)
Lemma push_beyond_capacity_witness :
  ∃ st, push_all (__init__ 3) [10; 20; 30; 40; 50] = Ok st
    ∧ _data st = [30; 40; 50].
Proof.
  destruct (push_beyond_capacity 3 2 [10; 20; 30; 40; 50])
    as [(st & Hrun & _ & _ & Hd & _) _]; [lia | lia | reflexivity |].
  exists st. by split.
Defined.

(** ** Equations of the methods of the game *)

Section GameEquations.
Implicit Types (g : SenkuGame) (b : gmap cell bool) (p orig dest : cell).

Lemma fill_cell_eq c g :
  fill_cell c g
  = (mkGame (<[c := true]> (_board g)) (_undo_stack g) (_with_tracking g),
     [CELL_ON c], Ok tt).
Proof. reflexivity. Qed.

Lemma empty_cell_eq c g :
  empty_cell c g
  = (mkGame (<[c := false]> (_board g)) (_undo_stack g) (_with_tracking g),
     [CELL_OFF c], Ok tt).
Proof. reflexivity. Qed.

Lemma bind_ok {A B : Type} (m : M A) (f : A → M B) g g1 log1 a :
  m g = (g1, log1, Ok a) →
  bind m f g = ((f a g1).1.1, log1 ++ (f a g1).1.2, (f a g1).2).
Proof. unfold bind. intros ->. by destruct (f a g1) as [[??]?]. Qed.

Lemma bind_raise {A B : Type} (m : M A) (f : A → M B) g g1 log1 e :
  m g = (g1, log1, Raise e) → bind m f g = (g1, log1, Raise e).
Proof. unfold bind. by intros ->. Qed.

(** [check_end] changes nothing; it notifies at most once. *)
Lemma check_end_eq g :
  check_end g
  = match scan_items (_board g) (map_to_list (_board g)).*1
            (map_to_list (_board g)) 0 with
    | Ok None => (g, [], Ok tt)
    | Ok (Some n) => (g, [GAME_OVER n], Ok tt)
    | Raise e => (g, [], Raise e)
    end.
Proof.
  unfold check_end, bind, get_board, lift.
  by destruct (scan_items _ _ _ _) as [[n|]|e].
Qed.

Lemma check_end_state g : state_of (check_end g) = g.
Proof. rewrite check_end_eq. by destruct (scan_items _ _ _ _) as [[n|]|e]. Qed.

Lemma movement_done_eq m g :
  movement_done m g
  = match push (_undo_stack g) m with
    | Raise e => (g, [], Raise e)
    | Ok st' =>
        let g' := mkGame (_board g) st' (_with_tracking g) in
        if _with_tracking g
        then (g', UNDO_STACK st' :: log_of (check_end g'), result_of (check_end g'))
        else (g', [UNDO_STACK st'], Ok tt)
    end.
Proof.
  unfold movement_done, bind, get_undo_stack, lift, put_undo_stack,
    notify, get_tracking.
  destruct (push _ _) as [st'|e]; [|done].
  cbn [_with_tracking]. destruct (_with_tracking g); [|done].
  pose proof (check_end_state (mkGame (_board g) st' true)) as Hst.
  destruct (check_end _) as [[g2 log2] r2]. cbn in Hst. by subst g2.
Qed.

(** The move is not legal: [execute] does nothing. *)
Lemma Move_execute_rejected g orig dest :
  check_distance orig dest = false
  ∨ board_check_cells (_board g) orig dest = Ok false →
  Move_execute (Move_init orig dest) g = (g, [], Ok tt).
Proof.
  unfold Move_execute, check_cells, bind, get_board, lift. cbn [_origin _dest Move_init].
  destruct (check_distance orig dest); [|done].
  intros [?| ->]; done.
Qed.

(** A lookup raises: [execute] raises the same error and does nothing. *)
Lemma Move_execute_raises g orig dest e :
  check_distance orig dest = true →
  board_check_cells (_board g) orig dest = Raise e →
  Move_execute (Move_init orig dest) g = (g, [], Raise e).
Proof.
  unfold Move_execute, check_cells, bind, get_board, lift. cbn [_origin _dest Move_init].
  by intros -> ->.
Qed.

(** The move is legal: the three cells change, then [movement_done]. *)
Lemma Move_execute_legal g orig dest :
  legal_move (_board g) orig dest →
  let m := Move_init orig dest in
  let g1 :=
    mkGame (<[avg orig dest := false]> (<[dest := true]> (<[orig := false]> (_board g))))
      (_undo_stack g) (_with_tracking g) in
  Move_execute m g
  = (state_of (movement_done m g1),
     [CELL_OFF orig; CELL_ON dest; CELL_OFF (avg orig dest)]
       ++ log_of (movement_done m g1),
     result_of (movement_done m g1)).
Proof.
  intros [Hd Hc] m g1.
  unfold Move_execute, check_cells, bind, get_board, lift. cbn [_origin _dest _mid Move_init m].
  rewrite Hd, Hc.
  repeat (rewrite ?empty_cell_eq, ?fill_cell_eq; cbn [_board _undo_stack _with_tracking]).
  fold g1. by destruct (movement_done m g1) as [[??]?].
Qed.

Lemma movement_done_board m g : _board (state_of (movement_done m g)) = _board g.
Proof.
  rewrite movement_done_eq. destruct (push _ _); [|done].
  by destruct (_with_tracking g).
Qed.

Lemma Move_undo_eq m g :
  Move_undo m g
  = (mkGame (<[_dest m := false]> (<[_mid m := true]> (<[_origin m := true]> (_board g))))
       (_undo_stack g) (_with_tracking g),
     [CELL_ON (_origin m); CELL_ON (_mid m); CELL_OFF (_dest m)], Ok tt).
Proof. reflexivity. Qed.

(** What a passed occupancy check says about the three cells. *)
Lemma board_check_cells_true b orig dest :
  board_check_cells b orig dest = Ok true ↔
  b !! orig = Some true ∧ b !! dest = Some false ∧ b !! avg orig dest = Some true.
Proof.
  unfold board_check_cells, getitem, result_bind.
  destruct (b !! orig) as [[]|], (b !! dest) as [[]|],
    (b !! avg orig dest) as [[]|]; cbn; intuition congruence.
Qed.

(** Origin, midpoint and destination of a jump are three cells. *)
Lemma check_distance_distinct orig dest :
  check_distance orig dest = true →
  orig ≠ dest ∧ avg orig dest ≠ orig ∧ avg orig dest ≠ dest.
Proof.
  destruct orig as [r1 c1], dest as [r2 c2]. unfold check_distance, avg. cbn [fst snd].
  intros H. apply orb_true_iff in H.
  assert (∀ x y : Z, Z.abs (x - y) = 2 → (x + y) / 2 ≠ x ∧ (x + y) / 2 ≠ y ∧ x ≠ y) as Hmid.
  { intros x y Hxy. assert (x = y + 2 ∨ y = x + 2) as [->| ->] by lia.
    - replace (y + 2 + y) with ((y + 1) * 2) by lia. rewrite Z.div_mul by lia. lia.
    - replace (x + (x + 2)) with ((x + 1) * 2) by lia. rewrite Z.div_mul by lia. lia. }
  destruct H as [H|H]; apply andb_true_iff in H as [Ha He];
    apply Z.eqb_eq in Ha, He; destruct (Hmid _ _ Ha) as (? & ? & ?);
    split_and!; intros [=]; congruence.
Qed.

End GameEquations.

(** ** Moves: rejection, round trip, undo *)

(** C4.  When the distance check fails, or the occupancy check returns
    false, an attempted move does nothing at all: the board and the undo
    history stay as they are, no observer is notified, and the call
    returns normally. *)
Theorem illegal_attempt_is_noop (g : SenkuGame) (orig dest : cell) :
  check_distance orig dest = false
  ∨ board_check_cells (_board g) orig dest = Ok false →
  let out := perform (AttemptMove orig dest) g in
  state_of out = g
  ∧ _board (state_of out) = _board g
  ∧ _undo_stack (state_of out) = _undo_stack g
  ∧ log_of out = []
  ∧ result_of out = Ok tt.
Proof.
  intros H out. subst out. cbn [perform].
  by rewrite (Move_execute_rejected g orig dest H).
Qed.

(** The diagonal pair (2,2), (4,4) on the new game. *)
Lemma illegal_attempt_is_noop_witness :
  check_distance (2, 2) (4, 4) = false
  ∧ perform (AttemptMove (2, 2) (4, 4)) new_game = (new_game, [], Ok tt).
Proof.
  split; [reflexivity|].
  destruct (illegal_attempt_is_noop new_game (2, 2) (4, 4)) as (Hs & _ & _ & Hl & Hr);
    [left; reflexivity|].
  destruct (perform (AttemptMove (2, 2) (4, 4)) new_game) as [[g' l'] r'].
  cbn in Hs, Hl, Hr. by subst.
Defined.

(** C1.  A move that passes the distance check and the occupancy check:
    [execute] empties the origin and the midpoint and fills the
    destination, and [undo] of the same move then gives the three cells
    the occupancy they had before [execute] (the whole board, in fact). *)
Theorem execute_then_undo_restores (g : SenkuGame) (orig dest : cell) :
  check_distance orig dest = true →
  board_check_cells (_board g) orig dest = Ok true →
  let m := Move_init orig dest in
  let g1 := state_of (Move_execute m g) in
  let g2 := state_of (Move_undo m g1) in
  (_board g1 !! orig = Some false
   ∧ _board g1 !! _mid m = Some false
   ∧ _board g1 !! dest = Some true)
  ∧ result_of (Move_undo m g1) = Ok tt
  ∧ (_board g2 !! orig = _board g !! orig
     ∧ _board g2 !! _mid m = _board g !! _mid m
     ∧ _board g2 !! dest = _board g !! dest)
  ∧ _board g2 = _board g.
Proof.
  intros Hd Hc m g1 g2.
  destruct (check_distance_distinct orig dest Hd) as (Hod & Hmo & Hmd).
  apply board_check_cells_true in Hc as Hcells. destruct Hcells as (Ho & Hde & Hm).
  assert (_board g1
          = <[avg orig dest := false]> (<[dest := true]> (<[orig := false]> (_board g))))
    as Hb1.
  { subst g1 m. rewrite (Move_execute_legal g orig dest (conj Hd Hc)).
    exact (movement_done_board _ _). }
  assert (_board g2 = _board g) as Hb2.
  { subst g2. rewrite Move_undo_eq. unfold state_of. cbn [fst _board _origin _mid _dest m Move_init].
    rewrite Hb1. apply map_eq. intros p.
    destruct (decide (p = dest)) as [->|?]; [by rewrite lookup_insert_eq|].
    rewrite lookup_insert_ne by done.
    destruct (decide (p = avg orig dest)) as [->|?]; [by rewrite lookup_insert_eq|].
    rewrite lookup_insert_ne by done.
    destruct (decide (p = orig)) as [->|?]; [by rewrite lookup_insert_eq|].
    by rewrite !lookup_insert_ne by done. }
  split_and!; rewrite ?Hb2; try done; rewrite Hb1; cbn [_mid m Move_init].
  - rewrite !lookup_insert_ne by done. by rewrite lookup_insert_eq.
  - by rewrite lookup_insert_eq.
  - rewrite lookup_insert_ne by done. by rewrite lookup_insert_eq.
Qed.

(** The first jump of a game, (1,3) over (2,3) into the centre. *)
Lemma execute_then_undo_restores_witness :
  let m := Move_init (1, 3) (3, 3) in
  _board (state_of (Move_undo m (state_of (Move_execute m new_game))))
  = _board new_game.
Proof.
  apply (execute_then_undo_restores new_game (1, 3) (3, 3)); reflexivity.
Defined.

(** C5.  [undo] on a game whose undo stack is empty raises the error of
    [pop] on an empty list (the specification's EmptyHistoryError is
    Python's [IndexError] here) and changes nothing.  On a stack
    [d ++ [m]], where [m] is the move pushed last, [undo] takes [m] off the
    stack, fills its origin and its midpoint and empties its destination,
    and then notifies the observers of the undo stack.  A [pop] that
    follows a [push] returns the element pushed. *)
Theorem undo_pops_and_reverses (b : gmap cell bool) (track : bool) (size : Z)
    (d : list Move) (m : Move) :
  undo (mkGame b (mkStack [] size) track)
  = (mkGame b (mkStack [] size) track, [], Raise IndexError)
  ∧ undo (mkGame b (mkStack (d ++ [m]) size) track)
    = (mkGame (<[_dest m := false]> (<[_mid m := true]> (<[_origin m := true]> b)))
         (mkStack d size) track,
       [CELL_ON (_origin m); CELL_ON (_mid m); CELL_OFF (_dest m);
        UNDO_STACK (mkStack d size)],
       Ok tt)
  ∧ match push (mkStack d size) m with
    | Ok st' => ∃ st'', pop st' = Ok (m, st'')
    | Raise _ => True
    end.
Proof.
  split_and!.
  - reflexivity.
  - unfold undo, bind, get_undo_stack, lift. cbn [_undo_stack].
    by rewrite pop_snoc.
  - unfold push. destruct (is_full _); cbn [_data result_bind].
    + destruct d as [|o rest]; [done|]. cbn. eexists. apply pop_snoc.
    + eexists. apply pop_snoc.
Qed.

(** ** The cells of the board *)

Lemma cross_cells_list :
  cross_cells = list_to_set
    [(0, 2); (0, 3); (0, 4); (1, 2); (1, 3); (1, 4);
     (2, 0); (2, 1); (2, 2); (2, 3); (2, 4); (2, 5); (2, 6);
     (3, 0); (3, 1); (3, 2); (3, 3); (3, 4); (3, 5); (3, 6);
     (4, 0); (4, 1); (4, 2); (4, 3); (4, 4); (4, 5); (4, 6);
     (5, 2); (5, 3); (5, 4); (6, 2); (6, 3); (6, 4)].
Proof. by vm_compute. Qed.

Lemma cross_cells_size : size cross_cells = 33%nat.
Proof. by vm_compute. Qed.

Lemma in_cross_elem_of (p : cell) : in_cross p = true → p ∈ cross_cells.
Proof.
  destruct p as [r c]. unfold in_cross. cbn [fst snd]. intros H.
  assert ((r = 0 ∨ r = 1 ∨ r = 2 ∨ r = 3 ∨ r = 4 ∨ r = 5 ∨ r = 6)
          ∧ (c = 0 ∨ c = 1 ∨ c = 2 ∨ c = 3 ∨ c = 4 ∨ c = 5 ∨ c = 6))
    as [Hr Hc] by lia.
  destruct_or!; subst; first [discriminate H | by vm_compute].
Qed.

Lemma elem_of_cross_cells (p : cell) : p ∈ cross_cells ↔ in_cross p = true.
Proof.
  split; [|apply in_cross_elem_of].
  rewrite cross_cells_list, elem_of_list_to_set, !elem_of_cons, elem_of_nil.
  intros H. destruct_or!; subst; done.
Qed.

Lemma not_elem_of_cross_cells (p : cell) : p ∉ cross_cells ↔ in_cross p = false.
Proof. rewrite elem_of_cross_cells. by destruct (in_cross p). Qed.

(** On the cross, the midpoint of a jump is a cell of the cross. *)
Lemma cross_midpoint (p q : cell) :
  p ∈ cross_cells → q ∈ cross_cells → check_distance p q = true →
  avg p q ∈ cross_cells.
Proof.
  rewrite !elem_of_cross_cells.
  destruct p as [r1 c1], q as [r2 c2]. unfold in_cross, check_distance, avg.
  cbn [fst snd]. intros Hp Hq Hd.
  assert ((r1 = r2 ∧ (c1 = c2 + 2 ∨ c2 = c1 + 2))
          ∨ (c1 = c2 ∧ (r1 = r2 + 2 ∨ r2 = r1 + 2))) as Hcase by lia.
  assert (∀ x, (x + x) / 2 = x) as Hsame.
  { intros x. replace (x + x) with (x * 2) by lia. by rewrite Z.div_mul. }
  assert (∀ x, (x + 2 + x) / 2 = x + 1) as Hup.
  { intros x. replace (x + 2 + x) with ((x + 1) * 2) by lia. by rewrite Z.div_mul. }
  assert (∀ x, (x + (x + 2)) / 2 = x + 1) as Hup'.
  { intros x. replace (x + (x + 2)) with ((x + 1) * 2) by lia. by rewrite Z.div_mul. }
  destruct Hcase as [[-> [-> | ->]] | [-> [-> | ->]]];
    rewrite ?Hsame, ?Hup, ?Hup'; lia.
Qed.

Lemma range_7 : range 7 = [0; 1; 2; 3; 4; 5; 6].
Proof. reflexivity. Qed.

(** [fill_board] sets the 33 cells of the cross and no other key, and
    notifies 33 times [CELL_ON] and once [CELL_OFF]. *)
Lemma fill_board_eq (g : SenkuGame) : ∃ b' log,
  fill_board g = (mkGame b' (_undo_stack g) (_with_tracking g), log, Ok tt)
  ∧ (length log = 34%nat ∧ Forall (λ ev, is_game_over ev = false) log)
  ∧ ∀ p, b' !! p = if in_cross p then initial_layout p else _board g !! p.
Proof.
  unfold fill_board. rewrite range_7.
  cbv [for_each bind fill_cell empty_cell board_setitem notify ret
       _board _undo_stack _with_tracking app].
  eexists _, _. split; [reflexivity|]. split; [split; [reflexivity|]|].
  { repeat (apply Forall_cons; split; [reflexivity|]). by apply Forall_nil. }
  intros p. unfold initial_layout. destruct (in_cross p) eqn:Hp.
  - apply in_cross_elem_of in Hp.
    rewrite cross_cells_list, elem_of_list_to_set, !elem_of_cons, elem_of_nil in Hp.
    destruct_or!; try done; subst p;
      repeat first [rewrite lookup_insert_eq | rewrite lookup_insert_ne by done];
      done.
  - rewrite !lookup_insert_ne by (intros <-; vm_compute in Hp; discriminate Hp).
    done.
Qed.

Lemma initial_layout_is_Some (p : cell) :
  is_Some (initial_layout p) ↔ p ∈ cross_cells.
Proof.
  rewrite elem_of_cross_cells. unfold initial_layout.
  destruct (in_cross p); [by split; eauto|].
  split; [by intros [? [=]] | done].
Qed.

Lemma new_game_board (p : cell) : _board new_game !! p = initial_layout p.
Proof.
  unfold new_game, SenkuGame_init.
  destruct (fill_board_eq (mkGame ∅ (__init__ MAX_UNDO_ACTIONS) DEFAULT_GAME_TRACKING))
    as (b' & log & -> & _ & Hb').
  cbn [state_of fst _board] in *. rewrite Hb'. unfold initial_layout.
  destruct (in_cross p); [done|]. apply lookup_empty.
Qed.

(** ** Replay of the state *)

Lemma replay_loop (g : SenkuGame) (ks : list cell) :
  Forall (λ k, is_Some (_board g !! k)) ks →
  for_each ks (λ k,
    bind (bind get_board (λ b', lift (getitem b' k)))
      (λ v, if v then notify (CELL_ON k) else notify (CELL_OFF k))) g
  = (g, cell_event (_board g) <$> ks, Ok tt).
Proof.
  induction 1 as [|k ks [v Hk] _ IH]; [done|].
  cbn [for_each fmap list_fmap].
  erewrite bind_ok; last first.
  { unfold bind, get_board, lift, getitem. rewrite Hk.
    instantiate (1 := tt). instantiate (1 := [cell_event (_board g) k]).
    instantiate (1 := g). unfold cell_event. rewrite Hk. by destruct v. }
  by rewrite IH.
Qed.

Lemma get_all_changes_eq (g : SenkuGame) :
  get_all_changes g
  = (g, UNDO_STACK (_undo_stack g)
        :: (cell_event (_board g) <$> (map_to_list (_board g)).*1), Ok tt).
Proof.
  unfold get_all_changes. unfold bind at 1. unfold get_undo_stack at 1.
  unfold bind at 1. unfold notify at 1. unfold bind at 1. unfold get_board at 1.
  rewrite replay_loop; [done|].
  apply Forall_forall. intros k Hk.
  apply list_elem_of_fmap in Hk as ([k' v] & -> & Hkv).
  apply elem_of_map_to_list in Hkv. by exists v.
Qed.

(** ** What every game keeps *)

Section StackInvariants.
Context {A : Type}.

Lemma list_pop_Ok (l r : list A) (x : A) :
  list_pop l = Ok (x, r) → l = r ++ [x].
Proof.
  destruct l as [|y l _] using rev_ind; [done|].
  rewrite list_pop_snoc. by intros [= -> ->].
Qed.

Lemma push_Forall (P : A → Prop) (st st' : DynamicBoundedStack A) (x : A) :
  push st x = Ok st' → Forall P (_data st) → P x →
  Forall P (_data st') ∧ _size st' = _size st.
Proof.
  unfold push. intros Hpush Hall Hx.
  destruct (is_full st); cbn [result_bind] in Hpush.
  - destruct (_data st) as [|o rest]; [done|].
    cbn in Hpush. injection Hpush as <-. cbn. split; [|done].
    apply Forall_app. split; [by eapply Forall_cons_1|by apply Forall_singleton].
  - injection Hpush as <-. cbn. split; [|done].
    apply Forall_app. split; [done|by apply Forall_singleton].
Qed.

(** A stack of positive capacity accepts every push. *)
Lemma push_positive_Ok (st : DynamicBoundedStack A) (x : A) :
  0 < _size st → ∃ st', push st x = Ok st'.
Proof.
  intros Hpos. destruct (is_full st) eqn:Hfull.
  - destruct (full_nonempty st Hpos Hfull) as (o & rest & Hd).
    eexists. by apply (push_full st x o rest).
  - eexists. by apply push_not_full.
Qed.

End StackInvariants.

Lemma getitem_Ok_dom (b : gmap cell bool) (k : cell) (v : bool) :
  b !! k = Some v → k ∈ dom b.
Proof. intros H. apply elem_of_dom. by exists v. Qed.

Lemma dom_insert_3 (b : gmap cell bool) (k1 k2 k3 : cell) (v1 v2 v3 : bool) :
  k1 ∈ dom b → k2 ∈ dom b → k3 ∈ dom b →
  dom (<[k3 := v3]> (<[k2 := v2]> (<[k1 := v1]> b))) = dom b.
Proof.
  intros H1 H2 H3. rewrite !dom_insert_L.
  apply set_eq. intros p. rewrite !elem_of_union, !elem_of_singleton.
  intuition congruence.
Qed.

Lemma new_game_inv : game_inv new_game.
Proof.
  split.
  - apply set_eq. intros p.
    by rewrite elem_of_dom, new_game_board, initial_layout_is_Some.
  - by apply Forall_nil.
  - reflexivity.
Qed.

Lemma Move_execute_inv (g : SenkuGame) (orig dest : cell) :
  game_inv g → game_inv (state_of (Move_execute (Move_init orig dest) g)).
Proof.
  intros [Hdom Hmoves Hsize].
  destruct (check_distance orig dest) eqn:Hd;
    [|by rewrite Move_execute_rejected by auto].
  destruct (board_check_cells (_board g) orig dest) as [[]|e] eqn:Hc;
    [|by rewrite Move_execute_rejected by auto
     |by rewrite (Move_execute_raises g orig dest e)].
  rewrite (Move_execute_legal g orig dest (conj Hd Hc)). unfold state_of at 1. cbn [fst].
  apply board_check_cells_true in Hc as (Ho%getitem_Ok_dom & Hde%getitem_Ok_dom
    & Hm%getitem_Ok_dom).
  rewrite movement_done_eq. cbn [_board _undo_stack _with_tracking].
  assert (dom (<[avg orig dest:=false]> (<[dest:=true]> (<[orig:=false]> (_board g))))
          = cross_cells) as Hdom' by (by rewrite dom_insert_3).
  destruct (push (_undo_stack g) (Move_init orig dest)) as [st'|e] eqn:Hpush.
  - assert (move_on_board (Move_init orig dest)) as Hmv.
    { unfold move_on_board. cbn. by rewrite <-Hdom. }
    destruct (push_Forall move_on_board _ _ _ Hpush Hmoves Hmv) as [Hall Hsz].
    destruct (_with_tracking g); cbn [fst snd];
      (split; cbn [state_of fst _board _undo_stack]; [done|done|by rewrite Hsz]).
  - by split.
Qed.

Lemma undo_inv (g : SenkuGame) : game_inv g → game_inv (state_of (undo g)).
Proof.
  intros [Hdom Hmoves Hsize].
  unfold undo, bind, get_undo_stack, lift, pop.
  destruct (list_pop (_data (_undo_stack g))) as [[m d]|e] eqn:Hpop; [|by split].
  cbn. apply list_pop_Ok in Hpop. rewrite Hpop in Hmoves.
  apply Forall_app in Hmoves as [Hd [(Ho & Hm & Hde) _]%Forall_cons_1].
  rewrite <-Hdom in Ho, Hm, Hde.
  split; cbn [_board _undo_stack _data _size]; [|done..].
  by rewrite dom_insert_3.
Qed.

Lemma restart_eq (g : SenkuGame) : ∃ log,
  restart g
  = (mkGame (_board (state_of (fill_board g))) (make_empty (_undo_stack g))
       (_with_tracking g),
     log ++ [UNDO_STACK (make_empty (_undo_stack g))], Ok tt)
  ∧ (length log = 34%nat ∧ Forall (λ ev, is_game_over ev = false) log).
Proof.
  destruct (fill_board_eq g) as (b' & log & Hfill & Hlen & _).
  exists log. split; [|done].
  unfold restart, bind. rewrite Hfill. by cbn.
Qed.

Lemma restart_inv (g : SenkuGame) : game_inv g → game_inv (state_of (restart g)).
Proof.
  intros [Hdom Hmoves Hsize].
  destruct (restart_eq g) as (log & -> & _).
  destruct (fill_board_eq g) as (b' & log' & -> & _ & Hb').
  split; cbn; [|by apply Forall_nil|done].
  apply set_eq. intros p. rewrite elem_of_dom, Hb'.
  destruct (in_cross p) eqn:Hp.
  - rewrite initial_layout_is_Some. split; [done|]. intros _. by apply in_cross_elem_of.
  - by rewrite <-elem_of_dom, Hdom.
Qed.

Lemma perform_inv (g : SenkuGame) (o : op) :
  game_inv g → game_inv (state_of (perform o g)).
Proof.
  intros Hg. destruct o as [orig dest| | |track| |]; cbn [perform].
  - by apply Move_execute_inv.
  - by apply undo_inv.
  - by apply restart_inv.
  - by destruct Hg.
  - by rewrite get_all_changes_eq.
  - by rewrite check_end_state.
Qed.

Lemma run_ops_inv (ops : list op) : ∀ g, game_inv g → game_inv (run_ops ops g).
Proof.
  induction ops as [|o ops IH]; intros g Hg; [done|].
  apply IH. by apply perform_inv.
Qed.

Lemma reachable_inv (g : SenkuGame) : reachable g → game_inv g.
Proof.
  induction 1 as [|g o _ IH]; [apply new_game_inv|by apply perform_inv].
Qed.

Lemma run_ops_reachable (ops : list op) : ∀ g, reachable g → reachable (run_ops ops g).
Proof.
  induction ops as [|o ops IH]; intros g Hg; [done|].
  apply IH. by constructor.
Qed.

(** C7.  From the construction of the game on, after any sequence of
    calls (moves, undo, restart, tracking switches, replays, end checks,
    including calls that raise), the keys of the board are exactly the 33
    cells of the cross: rows 2..4 with columns 0..6 and rows 0, 1, 5, 6
    with columns 2..4. *)
Theorem board_keys_are_the_cross (ops : list op) :
  dom (_board (run_ops ops new_game)) = cross_cells
  ∧ size (dom (_board (run_ops ops new_game))) = 33%nat
  ∧ ∀ p, is_Some (_board (run_ops ops new_game) !! p) ↔ in_cross p = true.
Proof.
  destruct (run_ops_inv ops new_game new_game_inv) as [Hdom _ _].
  split_and!; [done|by rewrite Hdom, cross_cells_size|].
  intros p. by rewrite <-elem_of_dom, Hdom, elem_of_cross_cells.
Qed.

(** C8.  [restart], called after any sequence of calls on a new game,
    returns normally and leaves the board in the initial layout: each of
    the 33 cells of the cross occupied except the centre (3,3), that is 32
    occupied cells and one empty; and the undo stack is empty. *)
Theorem restart_gives_initial_layout (ops : list op) :
  let out := restart (run_ops ops new_game) in
  result_of out = Ok tt
  ∧ (∀ p, _board (state_of out) !! p = initial_layout p)
  ∧ _board (state_of out) = _board new_game
  ∧ size (_board (state_of out)) = 33%nat
  ∧ cells_remaining (_board (state_of out)) = 32
  ∧ _board (state_of out) !! (3, 3) = Some false
  ∧ _data (_undo_stack (state_of out)) = []
  ∧ is_empty (_undo_stack (state_of out)) = true.
Proof.
  intros out. subst out.
  destruct (run_ops_inv ops new_game new_game_inv) as [Hdom _ _].
  destruct (restart_eq (run_ops ops new_game)) as (log & -> & _).
  destruct (fill_board_eq (run_ops ops new_game)) as (b' & log' & -> & _ & Hb').
  cbn [state_of result_of fst snd _board _undo_stack make_empty _data is_empty].
  assert (∀ p, b' !! p = initial_layout p) as Hlayout.
  { intros p. rewrite Hb'. destruct (in_cross p) eqn:Hp; [done|].
    unfold initial_layout. rewrite Hp.
    apply not_elem_of_dom. rewrite Hdom. by apply not_elem_of_cross_cells. }
  assert (b' = _board new_game) as ->.
  { apply map_eq. intros p. by rewrite Hlayout, new_game_board. }
  split_and!; try done; by vm_compute.
Qed.

(** C9.  In every state, [get_all_changes] returns normally; it notifies
    the observers of the undo stack and then, for each key of the board
    exactly once, [CELL_ON] of that key when the cell is occupied and
    [CELL_OFF] of it when it is empty; and it leaves the board, the undo
    stack and the tracking flag as they are. *)
Theorem replay_notifies_every_cell_once (g : SenkuGame) :
  let out := get_all_changes g in
  result_of out = Ok tt
  ∧ state_of out = g
  ∧ _board (state_of out) = _board g
  ∧ _undo_stack (state_of out) = _undo_stack g
  ∧ _with_tracking (state_of out) = _with_tracking g
  ∧ ∃ cells : list cell,
      NoDup cells
      ∧ (∀ p, p ∈ cells ↔ is_Some (_board g !! p))
      ∧ length cells = size (_board g)
      ∧ log_of out
        = UNDO_STACK (_undo_stack g) :: (cell_event (_board g) <$> cells).
Proof.
  intros out. subst out. rewrite get_all_changes_eq.
  split_and!; try done.
  exists (map_to_list (_board g)).*1. split_and!; [| | |done].
  - apply NoDup_fst_map_to_list.
  - intros p. rewrite list_elem_of_fmap. split.
    + intros ([k v] & -> & Hkv%elem_of_map_to_list). by exists v.
    + intros [v Hv]. exists (p, v). split; [done|]. by apply elem_of_map_to_list.
  - by rewrite length_fmap, length_map_to_list.
Qed.

(** ** The search for a legal move *)

Section EndScan.
Variable b : gmap cell bool.
Hypothesis Hdom : dom b = cross_cells.

(** On a board over the cross the occupancy check of a jump between two
    cells of the board never raises. *)
Lemma board_check_cells_total (p q : cell) :
  p ∈ dom b → q ∈ dom b → check_distance p q = true →
  ∃ v, board_check_cells b p q = Ok v.
Proof.
  intros Hp Hq Hd.
  assert (avg p q ∈ dom b) as Hm.
  { rewrite Hdom in *. by apply cross_midpoint. }
  apply elem_of_dom in Hp as [vp Hp], Hq as [vq Hq], Hm as [vm Hm].
  unfold board_check_cells, getitem, result_bind. rewrite Hp, Hq, Hm.
  destruct vp, vq; eauto.
Qed.

Lemma legal_move_cells (p q : cell) :
  legal_move b p q → b !! p = Some true ∧ q ∈ dom b.
Proof.
  intros [_ (Hp & Hq & _)%board_check_cells_true].
  split; [done|by eapply getitem_Ok_dom].
Qed.

(** The inner loop answers whether some key is a legal destination. *)
Lemma scan_dests_spec (p : cell) (keys : list cell) :
  p ∈ dom b → Forall (λ q, q ∈ dom b) keys →
  ∃ found, scan_dests b p keys = Ok found
    ∧ (found = true ↔ ∃ q, q ∈ keys ∧ legal_move b p q).
Proof.
  intros Hp. induction 1 as [|q keys Hq _ (found & IH & Hfound)].
  - exists false. split; [done|]. split; [done|]. by intros (q & ?%elem_of_nil & _).
  - cbn [scan_dests]. destruct (check_distance p q) eqn:Hd.
    + destruct (board_check_cells_total p q Hp Hq Hd) as [[] Hc];
        rewrite Hc; cbn [result_bind].
      * exists true. split; [done|]. split; [|done]. intros _.
        exists q. split; [by left|by split].
      * exists found. split; [done|]. rewrite Hfound. split.
        -- intros (q' & Hin & Hl). exists q'. split; [by right|done].
        -- intros (q' & [->|Hin]%elem_of_cons & Hl); [|by eauto].
           destruct Hl as [_ Hl]. congruence.
    + cbn [result_bind]. exists found. split; [done|]. rewrite Hfound. split.
      * intros (q' & Hin & Hl). exists q'. split; [by right|done].
      * intros (q' & [->|Hin]%elem_of_cons & Hl); [|by eauto].
        destruct Hl as [Hl _]. congruence.
Qed.

(** The outer loop: it returns from inside as soon as an occupied cell
    has a legal destination among the keys, and otherwise counts the
    occupied cells. *)
Lemma scan_items_spec (keys : list cell) (items : list (cell * bool)) :
  Forall (λ q, q ∈ dom b) keys →
  Forall (λ kv, b !! kv.1 = Some kv.2) items →
  ∀ n,
    ((∃ p q, (p, true) ∈ items ∧ q ∈ keys ∧ legal_move b p q)
     ∧ scan_items b keys items n = Ok None)
    ∨ ((¬ ∃ p q, (p, true) ∈ items ∧ q ∈ keys ∧ legal_move b p q)
       ∧ scan_items b keys items n
         = Ok (Some (n + Z.of_nat
             (length (filter (λ kv : cell * bool, kv.2 = true) items))))).
Proof.
  intros Hkeys. induction 1 as [|[p c] items Hp _ IH]; intros n.
  - right. split; [by intros (p & q & ?%elem_of_nil & _)|].
    cbn. by rewrite Z.add_0_r.
  - cbn [scan_items]. cbn [fst snd] in Hp. destruct c.
    + destruct (scan_dests_spec p keys) as (found & -> & Hfound);
        [by eapply getitem_Ok_dom|done|]. cbn [result_bind].
      destruct found.
      * left. split; [|done].
        destruct Hfound as [(q & Hq & Hl) _]; [done|].
        exists p, q. split_and!; [by left|done..].
      * rewrite filter_cons_True by done. cbn [length].
        destruct (IH (n + 1)) as [[(p' & q & Hin & Hq & Hl) ->]|[Hnone ->]].
        -- left. split; [|done]. exists p', q. split_and!; [by right|done..].
        -- right. split; [|do 2 f_equal; lia].
           intros (p' & q & [[= <-]|Hin]%elem_of_cons & Hq & Hl).
           ++ assert (false = true) by (apply Hfound; by exists q). done.
           ++ apply Hnone. eauto.
    + rewrite filter_cons_False by done.
      destruct (IH n) as [[(p' & q & Hin & Hq & Hl) ->]|[Hnone ->]].
      * left. split; [|done]. exists p', q. split_and!; [by right|done..].
      * right. split; [|done].
        intros (p' & q & [[=]|Hin]%elem_of_cons & Hq & Hl).
        apply Hnone. eauto.
Qed.

Lemma cells_remaining_list :
  cells_remaining b
  = Z.of_nat (length (filter (λ kv : cell * bool, kv.2 = true) (map_to_list b))).
Proof.
  unfold cells_remaining. rewrite map_filter_alt, map_size_list_to_map; [done|].
  eapply sublist_NoDup; [apply (NoDup_fst_map_to_list b)|].
  apply fmap_sublist, sublist_filter.
Qed.

(** The whole scan of [check_end]. *)
Lemma end_scan_spec :
  (has_legal_move b
   ∧ scan_items b (map_to_list b).*1 (map_to_list b) 0 = Ok None)
  ∨ (¬ has_legal_move b
     ∧ scan_items b (map_to_list b).*1 (map_to_list b) 0
       = Ok (Some (cells_remaining b))).
Proof.
  assert (Forall (λ q, q ∈ dom b) (map_to_list b).*1) as Hkeys.
  { apply Forall_forall. intros q ([q' v] & -> & Hq%elem_of_map_to_list)%list_elem_of_fmap.
    by eapply getitem_Ok_dom. }
  assert (Forall (λ kv, b !! kv.1 = Some kv.2) (map_to_list b)) as Hitems.
  { apply Forall_forall. intros [p v] Hp. by apply elem_of_map_to_list. }
  destruct (scan_items_spec _ _ Hkeys Hitems 0)
    as [[(p & q & Hp & Hq & Hl) Hscan]|[Hnone Hscan]].
  - left. split; [by exists p, q|done].
  - right. split.
    + intros (p & q & Hl). apply Hnone. exists p, q.
      destruct (legal_move_cells p q Hl) as [Hp Hq].
      split_and!; [by apply elem_of_map_to_list| |done].
      apply elem_of_dom in Hq as [v Hq]. apply list_elem_of_fmap.
      exists (q, v). split; [done|]. by apply elem_of_map_to_list.
    + by rewrite Hscan, cells_remaining_list.
Qed.

End EndScan.

(** [check_end] on a game whose board has the keys of the cross. *)
Lemma check_end_cases (g : SenkuGame) :
  dom (_board g) = cross_cells →
  (has_legal_move (_board g) ∧ check_end g = (g, [], Ok tt))
  ∨ (¬ has_legal_move (_board g)
     ∧ check_end g = (g, [GAME_OVER (cells_remaining (_board g))], Ok tt)).
Proof.
  intros Hdom. rewrite check_end_eq.
  destruct (end_scan_spec (_board g) Hdom) as [[Hl ->]|[Hn ->]]; [by left|by right].
Qed.

(** C2.  On every board over the 33 cells: when some occupied cell has a
    destination that passes the distance check and the occupancy check,
    [check_end] returns without notifying anyone (its loops return from
    inside at the first such pair); when there is no such pair, it
    notifies [GAME_OVER] exactly once, with the number of occupied cells.
    In both cases the game is left as it is and nothing is raised. *)
Theorem check_end_detects_the_end (g : SenkuGame) :
  dom (_board g) = cross_cells →
  (has_legal_move (_board g) ∨ ¬ has_legal_move (_board g))
  ∧ (has_legal_move (_board g) → check_end g = (g, [], Ok tt))
  ∧ (¬ has_legal_move (_board g) →
     check_end g = (g, [GAME_OVER (cells_remaining (_board g))], Ok tt)).
Proof.
  intros Hdom.
  destruct (check_end_cases g Hdom) as [[Hl Heq]|[Hn Heq]];
    (split_and!; [by auto|done..]).
Qed.

(** The initial layout has a legal move: nothing is notified. *)
Lemma check_end_detects_the_end_witness :
  check_end new_game = (new_game, [], Ok tt).
Proof.
  apply (check_end_detects_the_end new_game); [by vm_compute|].
  exists (1, 3), (3, 3). by vm_compute.
Defined.

(** A board with the centre as its only occupied cell: the game is over
    with one cell left. *)
Example check_end_single_peg :
  let b : gmap cell bool := <[(3, 3) := true]> ((λ _, false) <$> _board new_game) in
  check_end (mkGame b (__init__ MAX_UNDO_ACTIONS) true)
  = (mkGame b (__init__ MAX_UNDO_ACTIONS) true, [GAME_OVER 1], Ok tt).
Proof. by vm_compute. Qed.

(** ** A legal move, on a game that keeps its invariant *)

Lemma Move_execute_legal_inv (g : SenkuGame) (orig dest : cell) :
  game_inv g → legal_move (_board g) orig dest →
  let m := Move_init orig dest in
  let b' := <[avg orig dest := false]> (<[dest := true]> (<[orig := false]> (_board g))) in
  ∃ st' tail,
    push (_undo_stack g) m = Ok st'
    ∧ Move_execute m g
      = (mkGame b' st' (_with_tracking g),
         [CELL_OFF orig; CELL_ON dest; CELL_OFF (avg orig dest); UNDO_STACK st'] ++ tail,
         Ok tt)
    ∧ ((_with_tracking g = false ∧ tail = [])
       ∨ (_with_tracking g = true ∧ has_legal_move b' ∧ tail = [])
       ∨ (_with_tracking g = true ∧ ¬ has_legal_move b'
          ∧ tail = [GAME_OVER (cells_remaining b')])).
Proof.
  intros [Hdom Hmoves Hsize] Hl m b'. subst m.
  destruct (push_positive_Ok (_undo_stack g) (Move_init orig dest)) as [st' Hpush];
    [by rewrite Hsize|].
  rewrite (Move_execute_legal g orig dest Hl). fold b'.
  rewrite movement_done_eq. cbn [_board _undo_stack _with_tracking]. rewrite Hpush.
  assert (dom b' = cross_cells) as Hdom'.
  { destruct Hl as [_ (Ho%getitem_Ok_dom & Hde%getitem_Ok_dom
      & Hm%getitem_Ok_dom)%board_check_cells_true].
    subst b'. by rewrite dom_insert_3. }
  exists st'. destruct (_with_tracking g) eqn:Htrack.
  - destruct (check_end_cases (mkGame b' st' true) Hdom') as [[Hlegal ->]|[Hnone ->]].
    + exists []. split_and!; [done..|]. right. left. by split_and!.
    + exists [GAME_OVER (cells_remaining b')]. split_and!; [done..|].
      right. right. by split_and!.
  - exists []. split_and!; [done..|]. by left.
Qed.

(** ** The end of the game and the tracking flag *)

Lemma game_over_not_in (log : list event) (n : Z) :
  Forall (λ ev, is_game_over ev = false) log → GAME_OVER n ∉ log.
Proof.
  intros Hall Hin. rewrite Forall_forall in Hall. by specialize (Hall _ Hin).
Qed.

(** What a notification of the end of the game tells, call by call. *)
Lemma perform_game_over (g : SenkuGame) (o : op) (n : Z) :
  game_inv g →
  GAME_OVER n ∈ log_of (perform o g) →
  ¬ has_legal_move (_board (state_of (perform o g)))
  ∧ n = cells_remaining (_board (state_of (perform o g)))
  ∧ (o = CheckEnd
     ∨ (∃ orig dest, o = AttemptMove orig dest) ∧ _with_tracking g = true).
Proof.
  intros Hg. destruct o as [orig dest| | |track| |]; cbn [perform].
  - destruct (check_distance orig dest) eqn:Hd;
      [|rewrite Move_execute_rejected by auto; by intros ?%elem_of_nil].
    destruct (board_check_cells (_board g) orig dest) as [[]|e] eqn:Hc;
      [|rewrite Move_execute_rejected by auto; by intros ?%elem_of_nil
       |rewrite (Move_execute_raises g orig dest e) by done; by intros ?%elem_of_nil].
    destruct (Move_execute_legal_inv g orig dest Hg (conj Hd Hc))
      as (st' & tail & _ & -> & Htail).
    cbn [log_of state_of fst snd _board].
    rewrite elem_of_app, !elem_of_cons, elem_of_nil.
    intros [Hin|Hin]; [by destruct_or!|].
    destruct Htail as [[_ ->]|[(_ & _ & ->)|(Htrack & Hnone & ->)]];
      [by apply elem_of_nil in Hin..|].
    apply list_elem_of_singleton in Hin as [= ->].
    split_and!; [done..|]. right. split; [by eauto|done].
  - unfold undo, bind, get_undo_stack, lift, pop.
    destruct (list_pop _) as [[m d]|e]; cbn [result_bind log_of fst snd].
    + cbn. rewrite !elem_of_cons, elem_of_nil. intros Hin. by destruct_or!.
    + by intros ?%elem_of_nil.
  - destruct (restart_eq g) as (log & -> & _ & Hlog). cbn [log_of fst snd].
    rewrite elem_of_app, list_elem_of_singleton.
    intros [Hin|[=]]. by apply game_over_not_in in Hin.
  - by intros ?%elem_of_nil.
  - rewrite get_all_changes_eq. cbn [log_of fst snd].
    rewrite elem_of_cons, list_elem_of_fmap. intros [[=]|(k & Hk & _)].
    unfold cell_event in Hk. by destruct (_board g !! k) as [[]|].
  - destruct Hg as [Hdom _ _].
    destruct (check_end_cases g Hdom) as [[Hl ->]|[Hnone ->]];
      cbn [log_of state_of fst snd].
    + by intros ?%elem_of_nil.
    + intros [= ->]%list_elem_of_singleton. split_and!; [done..|by left].
Qed.

(** C6, as the code has it.  In every sequence of calls from the
    construction of the game, [GAME_OVER] is notified only when no legal
    move remains on the board, and its value is the number of occupied
    cells.  Only two calls notify it: an attempted move, and then the
    tracking flag is on; and [check_end] called by itself, which does not
    read the tracking flag. *)
Theorem game_over_only_without_moves (ops : list op) (o : op) (n : Z) :
  let g := run_ops ops new_game in
  let out := perform o g in
  GAME_OVER n ∈ log_of out →
  ¬ has_legal_move (_board (state_of out))
  ∧ n = cells_remaining (_board (state_of out))
  ∧ (o = CheckEnd
     ∨ (∃ orig dest, o = AttemptMove orig dest) ∧ _with_tracking g = true).
Proof.
  intros g out. apply perform_game_over. apply run_ops_inv, new_game_inv.
Qed.

(** The sixth jump of the short game, with tracking on. *)
Lemma game_over_only_without_moves_witness :
  let g := run_ops (take 5 short_game) new_game in
  let out := perform (AttemptMove (6, 3) (4, 3)) g in
  ¬ has_legal_move (_board (state_of out))
  ∧ 26 = cells_remaining (_board (state_of out))
  ∧ (AttemptMove (6, 3) (4, 3) = CheckEnd
     ∨ (∃ orig dest, AttemptMove (6, 3) (4, 3) = AttemptMove orig dest)
       ∧ _with_tracking g = true).
Proof.
  apply (game_over_only_without_moves (take 5 short_game) (AttemptMove (6, 3) (4, 3)) 26).
  vm_compute. repeat constructor.
Defined.

(** C6, as the specification has it, fails: with tracking switched off
    and the six jumps of the short game played, [check_end] notifies
    [GAME_OVER]. *)
Lemma game_over_with_tracking_off :
  let g := run_ops (SetTracking false :: short_game) new_game in
  _with_tracking g = false
  ∧ perform CheckEnd g = (g, [GAME_OVER 26], Ok tt).
Proof. by vm_compute. Qed.

(** ** Attempts that leave the board *)

(** C10, as the code has it.  An attempted move that passes the distance
    check raises a [KeyError] exactly in two cases: the origin is not a
    cell of the cross (the key is the origin), or the origin is an
    occupied cell and the destination is not a cell of the cross (the key
    is the destination).  When it raises, the game is as before and
    nothing was notified.  When the origin is an empty cell of the board,
    the attempt is ignored without an error, wherever the destination is. *)
Theorem attempt_outside_the_cross (ops : list op) (orig dest : cell) :
  let g := run_ops ops new_game in
  let out := perform (AttemptMove orig dest) g in
  check_distance orig dest = true →
  (∀ e, result_of out = Raise e ↔
     (e = KeyError orig ∧ in_cross orig = false)
     ∨ (e = KeyError dest ∧ _board g !! orig = Some true ∧ in_cross dest = false))
  ∧ (∀ e, result_of out = Raise e →
       state_of out = g
       ∧ _board (state_of out) = _board g
       ∧ _undo_stack (state_of out) = _undo_stack g
       ∧ log_of out = [])
  ∧ (_board g !! orig = Some false → out = (g, [], Ok tt)).
Proof.
  intros g out Hd. subst out. cbn [perform].
  assert (game_inv g) as Hg by apply run_ops_inv, new_game_inv.
  pose proof (inv_dom g Hg) as Hdom.
  assert (∀ p, _board g !! p = None ↔ in_cross p = false) as Hnone.
  { intros p. by rewrite <-not_elem_of_dom, Hdom, not_elem_of_cross_cells. }
  assert (∀ p v, _board g !! p = Some v → in_cross p = true) as Hsome.
  { intros p v Hp%getitem_Ok_dom. by rewrite Hdom, elem_of_cross_cells in Hp. }
  destruct (_board g !! orig) as [[]|] eqn:Ho.
  - destruct (_board g !! dest) as [[]|] eqn:Hde.
    + rewrite Move_execute_rejected
        by (right; unfold board_check_cells, getitem; by rewrite Ho, Hde).
      cbn [result_of state_of log_of fst snd].
      split_and!; [|done..]. intros e. split; [done|].
      intros [[_ Hx]|(_ & _ & Hx)]; [apply Hsome in Ho|apply Hsome in Hde]; congruence.
    + assert (is_Some (_board g !! avg orig dest)) as [vm Hm].
      { apply elem_of_dom. rewrite Hdom. apply cross_midpoint; [| |done];
          rewrite <-Hdom; by eapply getitem_Ok_dom. }
      assert (board_check_cells (_board g) orig dest = Ok vm) as Hc.
      { unfold board_check_cells, getitem. by rewrite Ho, Hde, Hm. }
      assert (result_of (Move_execute (Move_init orig dest) g) = Ok tt) as Hres.
      { destruct vm.
        - destruct (Move_execute_legal_inv g orig dest Hg (conj Hd Hc))
            as (st' & tail & _ & -> & _). done.
        - by rewrite Move_execute_rejected by auto. }
      split_and!; [|by rewrite Hres..|done].
      intros e. rewrite Hres. split; [done|].
      intros [[_ Hx]|(_ & _ & Hx)]; [apply Hsome in Ho|apply Hsome in Hde]; congruence.
    + rewrite (Move_execute_raises g orig dest (KeyError dest))
        by (try done; unfold board_check_cells, getitem; by rewrite Ho, Hde).
      cbn [result_of state_of log_of fst snd].
      split_and!; [|done..]. intros e. split.
      * intros [= <-]. right. split_and!; [done..|]. by apply Hnone.
      * intros [[-> Hx]|(-> & _ & _)]; [|done]. apply Hsome in Ho. congruence.
  - rewrite Move_execute_rejected
      by (right; unfold board_check_cells, getitem; by rewrite Ho).
    cbn [result_of state_of log_of fst snd].
    split_and!; [|done..]. intros e. split; [done|].
    intros [[_ Hx]|(_ & [=] & _)]. apply Hsome in Ho. congruence.
  - rewrite (Move_execute_raises g orig dest (KeyError orig))
      by (try done; unfold board_check_cells, getitem; by rewrite Ho).
    cbn [result_of state_of log_of fst snd].
    split_and!; [|done..]. intros e. split.
    + intros [= <-]. left. split; [done|]. by apply Hnone.
    + by intros [[-> _]|(_ & [=] & _)].
Qed.

(** From the corner of a bar towards a corner of the square: the
    destination (0,0) is no key of the board. *)
Lemma attempt_outside_the_cross_witness :
  check_distance (2, 0) (0, 0) = true
  ∧ result_of (perform (AttemptMove (2, 0) (0, 0)) (run_ops [] new_game))
    = Raise (KeyError (0, 0)).
Proof.
  split; [reflexivity|].
  destruct (attempt_outside_the_cross [] (2, 0) (0, 0)) as (Hraise & _ & _);
    [reflexivity|].
  destruct (Hraise (KeyError (0, 0))) as [_ Hback]. apply Hback.
  right. split_and!; [reflexivity|by vm_compute|reflexivity].
Defined.

(** C10, as stated, fails: after the first jump the cell (1,3) is empty,
    and the attempt from (1,3) to (1,1), which is no cell of the cross,
    passes the distance check and is ignored without any error. *)
Lemma attempt_outside_ignored :
  let g := run_ops [AttemptMove (1, 3) (3, 3)] new_game in
  check_distance (1, 3) (1, 1) = true
  ∧ in_cross (1, 1) = false
  ∧ _board g !! (1, 1) = None
  ∧ perform (AttemptMove (1, 3) (1, 1)) g = (g, [], Ok tt).
Proof. by vm_compute. Qed.

(** ** More on the bounded stack *)

Section StackUse.
Context {A : Type}.
Implicit Types (st : DynamicBoundedStack A) (xs : list A).

Lemma stack_eta st : mkStack (_data st) (_size st) = st.
Proof. by destruct st. Qed.

(** X1.  After a [push] that returned, [pop] gives back the element
    pushed; the stack is then exactly as before the [push] when it was
    not full, and lacks its oldest element when it was full. *)
Theorem push_then_pop st st' (x : A) :
  push st x = Ok st' →
  pop st' = Ok (x, if is_full st then mkStack (tail (_data st)) (_size st) else st).
Proof.
  unfold push. destruct (is_full st); cbn [result_bind].
  - destruct (_data st) as [|o rest]; [done|]. cbn.
    intros [= <-]. apply pop_snoc.
  - intros [= <-]. rewrite pop_snoc. by rewrite stack_eta.
Qed.

(** X3.  [pop] raises [IndexError] exactly when [is_empty] answers true;
    otherwise it returns the last element of [_data] and keeps the rest. *)
Theorem pop_raises_iff_empty st :
  (pop st = Raise IndexError ↔ is_empty st = true)
  ∧ ((∃ x st', pop st = Ok (x, st')
        ∧ _data st = _data st' ++ [x] ∧ _size st' = _size st)
     ↔ is_empty st = false).
Proof.
  unfold is_empty, pop.
  destruct (_data st) as [|y l _] eqn:Hd using rev_ind.
  - cbn. split; [done|]. split; [by intros (x & st' & [=] & _)|done].
  - rewrite list_pop_snoc. cbn [result_bind fst snd].
    assert (match l ++ [y] with [] => true | _ :: _ => false end = false) as ->
      by by destruct l.
    split; [done|]. split; [done|]. intros _.
    by exists y, (mkStack l (_size st)).
Qed.

(** X5.  Popping as many times as the stack holds elements returns them
    newest first and leaves the stack empty; the next [pop] raises. *)
Theorem pop_all_is_lifo st :
  pop_n (length (_data st)) st = Ok (rev (_data st), make_empty st)
  ∧ pop (make_empty st) = Raise IndexError
  ∧ pop_n (S (length (_data st))) st = Raise IndexError.
Proof.
  assert (∀ (l : list A) n, pop_n (length l) (mkStack l n) = Ok (rev l, mkStack [] n)) as Hn.
  { intros l n. induction l as [|y l IH] using rev_ind; [done|].
    rewrite length_app. cbn [length]. rewrite Nat.add_1_r. cbn [pop_n].
    rewrite pop_snoc. cbn [result_bind fst snd]. rewrite IH. cbn.
    by rewrite rev_unit. }
  assert (∀ (l : list A) n, pop_n (S (length l)) (mkStack l n) = Raise IndexError) as HS.
  { intros l n. induction l as [|y l IH] using rev_ind; [done|].
    rewrite length_app. cbn [length]. rewrite Nat.add_1_r.
    change (pop_n (S (S (length l))) ?s)
      with (result_bind (pop s) (λ xr, result_bind (pop_n (S (length l)) xr.2)
              (λ rest, Ok (xr.1 :: rest.1, rest.2)))).
    rewrite pop_snoc. cbn [result_bind fst snd]. by rewrite IH. }
  destruct st as [d n]. cbn [_data _size make_empty]. by rewrite Hn, HS.
Qed.

(** X4.  Below its capacity, and with a negative capacity always, the
    stack drops nothing: a run of pushes appends all the elements. *)
Theorem push_all_below_capacity xs : ∀ st,
  _size st < 0 ∨ Z.of_nat (length (_data st) + length xs) ≤ _size st →
  push_all st xs = Ok (mkStack (_data st ++ xs) (_size st)).
Proof.
  induction xs as [|x xs IH]; intros st Hcap.
  - cbn. by rewrite app_nil_r, stack_eta.
  - cbn [push_all]. rewrite push_not_full.
    + cbn [result_bind]. rewrite IH; cbn [_data _size].
      * by rewrite <-(assoc_L (++) (_data st) [x] xs).
      * rewrite length_app. cbn [length] in *. lia.
    + unfold is_full. apply Z.eqb_neq. cbn [length] in Hcap. lia.
Qed.

(** X2.  A stack of positive capacity that holds at most its capacity
    keeps doing so under every sequence of [push], [pop] and
    [make_empty]; its capacity never changes and no [push] raises. *)
Theorem stack_stays_within_capacity (ops : list (stack_op A)) : ∀ st,
  0 < _size st →
  Z.of_nat (length (_data st)) ≤ _size st →
  let st' := foldl stack_step st ops in
  Z.of_nat (length (_data st')) ≤ _size st'
  ∧ _size st' = _size st
  ∧ ∀ x, ∃ st'', push st' x = Ok st''.
Proof.
  induction ops as [|o ops IH]; intros st Hpos Hlen.
  - cbn. split_and!; [done..|]. intros x. by apply push_positive_Ok.
  - cbn [foldl].
    assert (0 < _size (stack_step st o)
            ∧ Z.of_nat (length (_data (stack_step st o))) ≤ _size (stack_step st o)
            ∧ _size (stack_step st o) = _size st) as (Hpos' & Hlen' & Hsz).
    { destruct o as [x| |]; cbn [stack_step].
      - destruct (is_full st) eqn:Hfull.
        + destruct (full_nonempty st Hpos Hfull) as (o & rest & Hd).
          rewrite (push_full st x o rest Hfull Hd). cbn.
          rewrite Hd in Hlen. rewrite length_app. cbn [length] in *. lia.
        + rewrite (push_not_full st x Hfull). cbn.
          apply Z.eqb_neq in Hfull. rewrite length_app. cbn [length]. lia.
      - unfold pop. destruct (_data st) as [|y l _] eqn:Hd using rev_ind.
        + cbn. rewrite Hd. cbn. lia.
        + rewrite list_pop_snoc. cbn. rewrite length_app in Hlen. lia.
      - cbn. lia. }
    destruct (IH (stack_step st o) Hpos' Hlen') as (H1 & H2 & H3).
    split_and!; [done|by rewrite H2|done].
Qed.

End StackUse.

Lemma push_then_pop_witness :
  pop (mkStack [2; 3; 4] 3) = Ok (4, mkStack [2; 3] 3).
Proof. apply (push_then_pop (mkStack [1; 2; 3] 3) _ 4). reflexivity. Defined.

Lemma push_all_below_capacity_witness :
  push_all (mkStack [1] (-1)) [2; 3] = Ok (mkStack [1; 2; 3] (-1)).
Proof. apply (push_all_below_capacity [2; 3] (mkStack [1] (-1))). left. reflexivity. Defined.

Lemma stack_stays_within_capacity_witness :
  Z.of_nat (length (_data (foldl stack_step (mkStack [] 2)
    [SPush 1; SPush 2; SPush 3; SPop; SPush 4; SPush 5]))) ≤ 2.
Proof.
  apply (stack_stays_within_capacity
    [SPush 1; SPush 2; SPush 3; SPop; SPush 4; SPush 5] (mkStack [] 2));
    [reflexivity | by vm_compute].
Defined.
(** ** Counting the pegs *)

Section PegCount.
Implicit Types (b : gmap cell bool) (k p : cell).

Lemma cells_remaining_insert b k (old new : bool) :
  b !! k = Some old →
  cells_remaining (<[k := new]> b)
  = cells_remaining b + Z.b2z new - Z.b2z old.
Proof.
  intros Hk. unfold cells_remaining.
  assert (filter (λ kv : cell * bool, kv.2 = true) b !! k
          = if old then Some true else None) as Hf.
  { destruct old.
    - by apply map_lookup_filter_Some.
    - apply map_lookup_filter_None. right. intros x Hx. cbn. congruence. }
  destruct new.
  - rewrite map_filter_insert_True by done. rewrite map_size_insert, Hf.
    destruct old; cbn; lia.
  - rewrite map_filter_insert_False by done.
    rewrite map_filter_delete, map_size_delete, Hf.
    destruct old; cbn; [|lia].
    assert (size (filter (λ kv : cell * bool, kv.2 = true) b) ≠ 0%nat); [|lia].
    intros Hz%map_size_empty_iff. rewrite Hz in Hf. by rewrite lookup_empty in Hf.
Qed.

Lemma cells_remaining_pos b k : b !! k = Some true → 1 ≤ cells_remaining b.
Proof.
  intros Hk. unfold cells_remaining.
  assert (size (filter (λ kv : cell * bool, kv.2 = true) b) ≠ 0%nat); [|lia].
  intros Hz%map_size_empty_iff.
  assert (filter (λ kv : cell * bool, kv.2 = true) b !! k = Some true) as Hf
    by by apply map_lookup_filter_Some.
  rewrite Hz in Hf. by rewrite lookup_empty in Hf.
Qed.

(** The board after a legal jump, cell by cell. *)
Lemma board_after_jump b orig dest :
  legal_move b orig dest →
  let b' := <[avg orig dest := false]> (<[dest := true]> (<[orig := false]> b)) in
  b' !! orig = Some false
  ∧ b' !! avg orig dest = Some false
  ∧ b' !! dest = Some true
  ∧ (∀ p, p ≠ orig → p ≠ avg orig dest → p ≠ dest → b' !! p = b !! p)
  ∧ cells_remaining b' = cells_remaining b - 1
  ∧ board_after_undo b' (Move_init orig dest) = b.
Proof.
  intros [Hd (Ho & Hde & Hm)%board_check_cells_true] b'.
  destruct (check_distance_distinct orig dest Hd) as (Hod & Hmo & Hmd).
  subst b'. split_and!.
  - rewrite !lookup_insert_ne by done. by rewrite lookup_insert_eq.
  - by rewrite lookup_insert_eq.
  - rewrite lookup_insert_ne by done. by rewrite lookup_insert_eq.
  - intros p ???. by rewrite !lookup_insert_ne by done.
  - rewrite (cells_remaining_insert _ _ true false)
      by (by rewrite !lookup_insert_ne by done).
    rewrite (cells_remaining_insert _ _ false true)
      by (by rewrite !lookup_insert_ne by done).
    rewrite (cells_remaining_insert _ _ true false) by done. cbn. lia.
  - unfold board_after_undo. cbn [_origin _mid _dest Move_init].
    apply map_eq. intros p.
    destruct (decide (p = dest)) as [->|?]; [by rewrite lookup_insert_eq|].
    rewrite lookup_insert_ne by done.
    destruct (decide (p = avg orig dest)) as [->|?]; [by rewrite lookup_insert_eq|].
    rewrite lookup_insert_ne by done.
    destruct (decide (p = orig)) as [->|?]; [by rewrite lookup_insert_eq|].
    by rewrite !lookup_insert_ne by done.
Qed.

(** The board after a jump is taken back. *)
Lemma board_after_undo_done b (m : Move) :
  move_done b m →
  legal_move (board_after_undo b m) (_origin m) (_dest m)
  ∧ cells_remaining (board_after_undo b m) = cells_remaining b + 1.
Proof.
  intros (Hd & Hmid & Ho & Hm & Hde).
  rewrite Hmid in *.
  destruct (check_distance_distinct _ _ Hd) as (Hod & Hmo & Hmd).
  unfold board_after_undo. rewrite Hmid. split.
  - split; [done|]. apply board_check_cells_true. split_and!.
    + rewrite !lookup_insert_ne by done. by rewrite lookup_insert_eq.
    + by rewrite lookup_insert_eq.
    + rewrite lookup_insert_ne by done. by rewrite lookup_insert_eq.
  - rewrite (cells_remaining_insert _ _ true false)
      by (by rewrite !lookup_insert_ne by done).
    rewrite (cells_remaining_insert _ _ false true)
      by (by rewrite !lookup_insert_ne by done).
    rewrite (cells_remaining_insert _ _ false true) by done. cbn. lia.
Qed.

Lemma unwinds_app_l b (l l' : list Move) : unwinds b (l ++ l') → unwinds b l.
Proof.
  revert b. induction l as [|m l IH]; intros b; [done|].
  cbn. intros [Hm Hl]. split; [done|]. by apply IH.
Qed.

End PegCount.

(** ** The undo stack as a history of the board *)

Lemma new_game_pegs : cells_remaining (_board new_game) = 32.
Proof. by vm_compute. Qed.

Lemma new_game_history_inv : history_inv new_game.
Proof. split; by vm_compute. Qed.

Lemma restart_board (g : SenkuGame) :
  game_inv g →
  _board (state_of (restart g)) = _board new_game
  ∧ _data (_undo_stack (state_of (restart g))) = [].
Proof.
  intros [Hdom _ _].
  destruct (restart_eq g) as (log & -> & _).
  destruct (fill_board_eq g) as (b' & log' & -> & _ & Hb').
  cbn [state_of fst _board _undo_stack make_empty _data]. split; [|done].
  apply map_eq. intros p. rewrite Hb', new_game_board.
  destruct (in_cross p) eqn:Hp; [done|].
  unfold initial_layout. rewrite Hp.
  apply not_elem_of_dom. rewrite Hdom. by apply not_elem_of_cross_cells.
Qed.

(** The data of the stack after a push into the stack of a game. *)
Lemma push_game_stack (st st' : DynamicBoundedStack Move) (m : Move) :
  _size st = MAX_UNDO_ACTIONS →
  Z.of_nat (length (_data st)) ≤ MAX_UNDO_ACTIONS →
  push st m = Ok st' →
  ∃ kept dropped,
    _data st = dropped ++ kept
    ∧ _data st' = kept ++ [m]
    ∧ _size st' = MAX_UNDO_ACTIONS
    ∧ Z.of_nat (length (_data st')) ≤ MAX_UNDO_ACTIONS
    ∧ (length (_data st') ≤ S (length (_data st)))%nat
    ∧ (if is_full st then ∃ o, dropped = [o] else dropped = []).
Proof.
  intros Hsz Hlen. unfold push. destruct (is_full st) eqn:Hfull; cbn [result_bind].
  - destruct (_data st) as [|o rest] eqn:Hd; [done|]. cbn.
    intros [= <-]. exists rest, [o]. cbn [_data _size length] in *.
    rewrite length_app. cbn [length].
    split_and!; [done..|lia|lia|by eauto].
  - intros [= <-]. exists (_data st), []. cbn [_data _size].
    apply Z.eqb_neq in Hfull. rewrite length_app. cbn [length].
    split_and!; [done..|lia|lia|done].
Qed.

Lemma Move_execute_history_inv (g : SenkuGame) (orig dest : cell) :
  game_inv g → history_inv g →
  history_inv (state_of (Move_execute (Move_init orig dest) g)).
Proof.
  intros Hg Hh.
  destruct (check_distance orig dest) eqn:Hd;
    [|by rewrite Move_execute_rejected by auto].
  destruct (board_check_cells (_board g) orig dest) as [[]|e] eqn:Hc;
    [|by rewrite Move_execute_rejected by auto
     |by rewrite (Move_execute_raises g orig dest e)].
  destruct (Move_execute_legal_inv g orig dest Hg (conj Hd Hc))
    as (st' & tail & Hpush & -> & _).
  cbn [state_of fst].
  destruct Hh as [Hunw Hlen Hpegs Hpeg]. destruct Hg as [_ _ Hsz].
  destruct (push_game_stack _ _ _ Hsz Hlen Hpush)
    as (kept & dropped & Hdata & Hdata' & _ & Hlen' & Hgrow & _).
  destruct (board_after_jump (_board g) orig dest (conj Hd Hc))
    as (Ho & Hm & Hde & _ & Hcount & Hback).
  split; cbn [_board _undo_stack].
  - rewrite Hdata', rev_unit. cbn [unwinds]. split.
    + by split_and!.
    + rewrite Hback. rewrite Hdata, rev_app_distr in Hunw.
      by eapply unwinds_app_l.
  - done.
  - rewrite Hcount. lia.
  - by eapply cells_remaining_pos.
Qed.

Lemma undo_eq (g : SenkuGame) :
  undo g
  = match list_pop (_data (_undo_stack g)) with
    | Raise e => (g, [], Raise e)
    | Ok (m, d) =>
        (mkGame (board_after_undo (_board g) m)
           (mkStack d (_size (_undo_stack g))) (_with_tracking g),
         [CELL_ON (_origin m); CELL_ON (_mid m); CELL_OFF (_dest m);
          UNDO_STACK (mkStack d (_size (_undo_stack g)))],
         Ok tt)
    end.
Proof.
  unfold undo, bind, get_undo_stack, lift, pop.
  by destruct (list_pop _) as [[m d]|e].
Qed.

Lemma undo_history_inv (g : SenkuGame) :
  history_inv g → history_inv (state_of (undo g)).
Proof.
  intros [Hunw Hlen Hpegs Hpeg]. rewrite undo_eq.
  destruct (list_pop (_data (_undo_stack g))) as [[m d]|e] eqn:Hpop; [|by split].
  apply list_pop_Ok in Hpop. rewrite Hpop in *. rewrite rev_unit in Hunw.
  destruct Hunw as [Hdone Hunw].
  destruct (board_after_undo_done _ _ Hdone) as [_ Hcount].
  rewrite length_app in Hlen, Hpegs. cbn [length] in *.
  split; cbn [state_of fst _board _undo_stack _data]; [done|lia|lia|lia].
Qed.

Lemma perform_history_inv (g : SenkuGame) (o : op) :
  game_inv g → history_inv g → history_inv (state_of (perform o g)).
Proof.
  intros Hg Hh. destruct o as [orig dest| | |track| |]; cbn [perform].
  - by apply Move_execute_history_inv.
  - by apply undo_history_inv.
  - destruct (restart_board g Hg) as [Hb Hd].
    split; rewrite ?Hb, ?Hd; [done|by vm_compute..].
  - by destruct Hh.
  - by rewrite get_all_changes_eq.
  - by rewrite check_end_state.
Qed.

Lemma run_ops_history_inv (ops : list op) : ∀ g,
  game_inv g → history_inv g → history_inv (run_ops ops g).
Proof.
  induction ops as [|o ops IH]; intros g Hg Hh; [done|].
  apply IH; [by apply perform_inv|by apply perform_history_inv].
Qed.

(** ** Legal jumps *)


Lemma Move_execute_legal_board (g : SenkuGame) (orig dest : cell) :
  legal_move (_board g) orig dest →
  _board (state_of (Move_execute (Move_init orig dest) g))
  = <[avg orig dest := false]> (<[dest := true]> (<[orig := false]> (_board g))).
Proof.
  intros Hl. rewrite (Move_execute_legal g orig dest Hl).
  exact (movement_done_board _ _).
Qed.



(** X15.  An attempted move changes the board if and only if it passes
    both checks. *)
Theorem attempt_changes_board_iff_legal (g : SenkuGame) (orig dest : cell) :
  _board (state_of (perform (AttemptMove orig dest) g)) ≠ _board g
  ↔ legal_move (_board g) orig dest.
Proof.
  cbn [perform]. split.
  - intros Hne. destruct (check_distance orig dest) eqn:Hd;
      [|by rewrite Move_execute_rejected in Hne by auto].
    destruct (board_check_cells (_board g) orig dest) as [[]|e] eqn:Hc.
    + done.
    + by rewrite Move_execute_rejected in Hne by auto.
    + by rewrite (Move_execute_raises g orig dest e) in Hne.
  - intros Hl Heq. rewrite (Move_execute_legal_board g orig dest Hl) in Heq.
    destruct (board_after_jump (_board g) orig dest Hl) as (Ho & _).
    rewrite Heq in Ho.
    destruct Hl as [_ (Ho' & _)%board_check_cells_true]. congruence.
Qed.

(** X6.  A legal jump on a game reached from a new game: the call
    returns normally; the three cells change; the move is pushed on the
    undo stack, whose oldest entry is dropped when it already held
    [MAX_UNDO_ACTIONS] moves; the observers are notified of the origin, the
    destination, the midpoint and the undo stack, in this order, and then
    of the end of the game exactly when tracking is on and no legal move
    is left. *)
Theorem legal_attempt_succeeds (ops : list op) (orig dest : cell) :
  let g := run_ops ops new_game in
  let m := Move_init orig dest in
  let b' := <[avg orig dest := false]> (<[dest := true]> (<[orig := false]> (_board g))) in
  legal_move (_board g) orig dest →
  ∃ st' more,
    perform (AttemptMove orig dest) g
    = (mkGame b' st' (_with_tracking g),
       [CELL_OFF orig; CELL_ON dest; CELL_OFF (avg orig dest); UNDO_STACK st'] ++ more,
       Ok tt)
    ∧ _size st' = MAX_UNDO_ACTIONS
    ∧ _data st'
      = (if is_full (_undo_stack g) then tail (_data (_undo_stack g))
         else _data (_undo_stack g)) ++ [m]
    ∧ ((more = [] ∧ (_with_tracking g = false ∨ has_legal_move b'))
       ∨ (more = [GAME_OVER (cells_remaining b')]
          ∧ _with_tracking g = true ∧ ¬ has_legal_move b')).
Proof.
  intros g m b' Hl. subst m b'.
  assert (game_inv g) as Hg by apply run_ops_inv, new_game_inv.
  destruct (Move_execute_legal_inv g orig dest Hg Hl)
    as (st' & more & Hpush & Heq & Htail).
  exists st', more. cbn [perform]. split_and!; [done| | |].
  - destruct Hg as [_ _ Hsz].
    destruct (push_Forall (λ _, True) _ _ _ Hpush) as [_ ->]; [|done..].
    apply Forall_forall. done.
  - revert Hpush. unfold push. destruct (is_full _); cbn [result_bind].
    + destruct (_data (_undo_stack g)); [done|]. cbn. by intros [= <-].
    + by intros [= <-].
  - destruct Htail as [[? ->]|[(? & ? & ->)|(? & ? & ->)]]; [left|left|right]; auto.
Qed.

Lemma legal_attempt_succeeds_witness :
  ∃ st' more,
    perform (AttemptMove (1, 3) (3, 3)) (run_ops [] new_game)
    = (mkGame (<[avg (1, 3) (3, 3) := false]> (<[(3, 3) := true]>
                 (<[(1, 3) := false]> (_board (run_ops [] new_game)))))
         st' (_with_tracking (run_ops [] new_game)),
       [CELL_OFF (1, 3); CELL_ON (3, 3); CELL_OFF (avg (1, 3) (3, 3)); UNDO_STACK st']
         ++ more,
       Ok tt).
Proof.
  destruct (legal_attempt_succeeds [] (1, 3) (3, 3)) as (st' & more & Heq & _);
    [by vm_compute|].
  by exists st', more.
Defined.

(** X8.  In every game reached from a new game the undo stack holds at
    most [MAX_UNDO_ACTIONS] moves, between 1 and 32 cells are occupied,
    and occupied cells and stacked moves together are at most 32. *)
Theorem game_stays_within_bounds (ops : list op) :
  let g := run_ops ops new_game in
  Z.of_nat (length (_data (_undo_stack g))) ≤ MAX_UNDO_ACTIONS
  ∧ _size (_undo_stack g) = MAX_UNDO_ACTIONS
  ∧ 1 ≤ cells_remaining (_board g) ≤ 32
  ∧ cells_remaining (_board g) + Z.of_nat (length (_data (_undo_stack g))) ≤ 32.
Proof.
  intros g.
  destruct (run_ops_inv ops new_game new_game_inv) as [_ _ Hsz].
  destruct (run_ops_history_inv ops new_game new_game_inv new_game_history_inv)
    as [_ Hlen Hpegs Hpeg].
  fold g in Hsz, Hlen, Hpegs, Hpeg. split_and!; [done..|lia|done].
Qed.

(** X9.  In a game reached from a new game, [undo] with a move on the
    stack returns normally, puts one peg back, and leaves a board on which
    the move taken back is legal again: after an [undo] the game is never
    over. *)
Theorem undo_reopens_the_move (ops : list op) :
  let g := run_ops ops new_game in
  let out := perform Undo g in
  is_empty (_undo_stack g) = false →
  result_of out = Ok tt
  ∧ cells_remaining (_board (state_of out)) = cells_remaining (_board g) + 1
  ∧ has_legal_move (_board (state_of out))
  ∧ ∃ m d, _data (_undo_stack g) = d ++ [m]
      ∧ _data (_undo_stack (state_of out)) = d
      ∧ legal_move (_board (state_of out)) (_origin m) (_dest m).
Proof.
  intros g out Hne. subst out. cbn [perform]. rewrite undo_eq.
  destruct (run_ops_history_inv ops new_game new_game_inv new_game_history_inv)
    as [Hunw _ _ _]. fold g in Hunw.
  destruct (list_pop (_data (_undo_stack g))) as [[m d]|e] eqn:Hpop.
  - apply list_pop_Ok in Hpop. rewrite Hpop, rev_unit in Hunw.
    destruct Hunw as [Hdone _].
    destruct (board_after_undo_done _ _ Hdone) as [Hlegal Hcount].
    cbn [result_of state_of fst snd _board _undo_stack _data].
    split_and!; [done|done|by exists (_origin m), (_dest m)|].
    by exists m, d.
  - unfold is_empty in Hne. destruct (_data (_undo_stack g)); [done|].
    destruct l using rev_ind; [done|].
    by rewrite app_comm_cons, list_pop_snoc in Hpop.
Qed.

Lemma undo_reopens_the_move_witness :
  has_legal_move
    (_board (state_of (perform Undo (run_ops [AttemptMove (1, 3) (3, 3)] new_game)))).
Proof.
  apply (undo_reopens_the_move [AttemptMove (1, 3) (3, 3)]). by vm_compute.
Defined.

(** X10.  In a game reached from a new game, a legal jump followed by
    [undo] gives back the board and the tracking flag; the undo stack is
    as before the jump, without its oldest move when it was full; when it
    was not full the whole game is as before.  [undo] notifies the origin
    and the midpoint as filled, the destination as emptied, and then the
    undo stack. *)
Theorem attempt_then_undo_restores_game (ops : list op) (orig dest : cell) :
  let g := run_ops ops new_game in
  let g1 := state_of (perform (AttemptMove orig dest) g) in
  let out := perform Undo g1 in
  legal_move (_board g) orig dest →
  result_of out = Ok tt
  ∧ _board (state_of out) = _board g
  ∧ _with_tracking (state_of out) = _with_tracking g
  ∧ _data (_undo_stack (state_of out))
    = (if is_full (_undo_stack g) then tail (_data (_undo_stack g))
       else _data (_undo_stack g))
  ∧ (if is_full (_undo_stack g) then True else state_of out = g)
  ∧ log_of out
    = [CELL_ON orig; CELL_ON (avg orig dest); CELL_OFF dest;
       UNDO_STACK (_undo_stack (state_of out))].
Proof.
  intros g g1 out Hl. subst out g1. cbn [perform].
  assert (game_inv g) as Hg by apply run_ops_inv, new_game_inv.
  destruct (Move_execute_legal_inv g orig dest Hg Hl)
    as (st' & more & Hpush & -> & _).
  cbn [state_of fst]. rewrite undo_eq. cbn [_board _undo_stack _with_tracking].
  destruct (push_Forall (λ _, True) _ _ _ Hpush) as [_ Hsz];
    [by apply Forall_forall|done|].
  destruct (board_after_jump (_board g) orig dest Hl) as (_ & _ & _ & _ & _ & Hback).
  assert (_data st'
          = (if is_full (_undo_stack g) then tail (_data (_undo_stack g))
             else _data (_undo_stack g)) ++ [Move_init orig dest]) as Hdata.
  { revert Hpush. unfold push. destruct (is_full _); cbn [result_bind].
    - destruct (_data (_undo_stack g)); [done|]. cbn. by intros [= <-].
    - by intros [= <-]. }
  rewrite Hdata, list_pop_snoc, Hback.
  cbn [result_of state_of log_of fst snd _board _undo_stack _with_tracking _data
       _origin _mid _dest Move_init].
  split_and!; try done.
  destruct (is_full (_undo_stack g)); [done|].
  rewrite Hsz. destruct g as [b [d n] t]. done.
Qed.

Lemma attempt_then_undo_restores_game_witness :
  state_of (perform Undo (state_of (perform (AttemptMove (1, 3) (3, 3))
    (run_ops [] new_game)))) = run_ops [] new_game.
Proof.
  destruct (attempt_then_undo_restores_game [] (1, 3) (3, 3))
    as (_ & _ & _ & _ & Hsame & _); [by vm_compute|].
  exact Hsame.
Defined.

Lemma undo_run_empties (n : nat) : ∀ g,
  (length (_data (_undo_stack g)) ≤ n)%nat →
  _data (_undo_stack (run_ops (replicate n Undo) g)) = [].
Proof.
  induction n as [|n IH]; intros g Hlen.
  - cbn. by destruct (_data (_undo_stack g)); [|cbn in Hlen; lia].
  - cbn [replicate run_ops foldl perform]. apply IH. rewrite undo_eq.
    destruct (_data (_undo_stack g)) as [|y l _] eqn:Hd using rev_ind.
    + cbn. rewrite Hd. cbn. lia.
    + rewrite list_pop_snoc. cbn. rewrite length_app in Hlen. cbn in Hlen. lia.
Qed.

(** X11.  At most [MAX_UNDO_ACTIONS] moves can be taken back in a row:
    after five calls of [undo], whatever was played before, the undo
    stack is empty and one more [undo] raises [IndexError] and changes
    nothing. *)
Theorem five_undos_empty_the_stack (ops : list op) :
  let g := run_ops (ops ++ replicate (Z.to_nat MAX_UNDO_ACTIONS) Undo) new_game in
  _data (_undo_stack g) = []
  ∧ is_empty (_undo_stack g) = true
  ∧ perform Undo g = (g, [], Raise IndexError).
Proof.
  intros g.
  assert (_data (_undo_stack g) = []) as Hd.
  { subst g. unfold run_ops. rewrite foldl_app. apply undo_run_empties.
    destruct (run_ops_history_inv ops new_game new_game_inv new_game_history_inv)
      as [_ Hlen _ _].
    unfold run_ops in Hlen. unfold MAX_UNDO_ACTIONS in *. lia. }
  split_and!; [done|by unfold is_empty; rewrite Hd|].
  cbn [perform]. rewrite undo_eq, Hd. done.
Qed.

(** ** The order of the notifications *)

Lemma Forall_removelast {X : Type} (P : X → Prop) (l : list X) :
  Forall P l → Forall P (removelast l).
Proof.
  induction 1 as [|x l Hx Hl IH]; [done|].
  cbn. destruct l; [by apply Forall_nil|]. by apply Forall_cons.
Qed.

(** X13.  In a game reached from a new game, a call notifies the end of
    the game at most once, and then as its last notification. *)
Theorem game_over_comes_last (ops : list op) (o : op) :
  let out := perform o (run_ops ops new_game) in
  Forall (λ ev, is_game_over ev = false) (removelast (log_of out)).
Proof.
  intros out. subst out.
  assert (game_inv (run_ops ops new_game)) as Hg by apply run_ops_inv, new_game_inv.
  generalize dependent (run_ops ops new_game). intros g Hg.
  destruct o as [orig dest| | |track| |]; cbn [perform].
  - destruct (check_distance orig dest) eqn:Hd;
      [|rewrite Move_execute_rejected by auto; by apply Forall_nil].
    destruct (board_check_cells (_board g) orig dest) as [[]|e] eqn:Hc;
      [|rewrite Move_execute_rejected by auto; by apply Forall_nil
       |rewrite (Move_execute_raises g orig dest e) by done; by apply Forall_nil].
    destruct (Move_execute_legal_inv g orig dest Hg (conj Hd Hc))
      as (st' & more & _ & -> & Hmore).
    cbn [log_of fst snd].
    destruct Hmore as [[_ ->]|[(_ & _ & ->)|(_ & _ & ->)]]; cbn;
      repeat (apply Forall_cons; split; [done|]); by apply Forall_nil.
  - rewrite undo_eq. destruct (list_pop _) as [[m d]|e]; cbn;
      repeat (apply Forall_cons; split; [done|]); by apply Forall_nil.
  - destruct (restart_eq g) as (log & -> & _ & Hlog). cbn [log_of fst snd].
    by rewrite removelast_last.
  - by apply Forall_nil.
  - rewrite get_all_changes_eq. cbn [log_of fst snd]. apply Forall_removelast.
    apply Forall_cons. split; [done|]. apply Forall_forall.
    intros ev (k & -> & _)%list_elem_of_fmap. unfold cell_event.
    by destruct (_board g !! k) as [[]|].
  - destruct Hg as [Hdom _ _].
    destruct (check_end_cases g Hdom) as [[_ ->]|[_ ->]]; by apply Forall_nil.
Qed.


(** ** The subject of the observer pattern *)

Section SubjectFacts.
Context {O V : Type} `{EqDecision O}.
Implicit Types (observers : gmap string (list O)) (obj : O) (l : list O).

Lemma list_remove_snoc_fresh obj l :
  obj ∉ l → Observer.list_remove obj (l ++ [obj]) = Observer.Done l.
Proof.
  induction l as [|y l IH]; intros Hnot.
  - cbn. by rewrite decide_True.
  - apply not_elem_of_cons in Hnot as [Hne Hnot]. cbn.
    rewrite decide_False by done. by rewrite IH.
Qed.

Lemma list_remove_spec obj l :
  match Observer.list_remove obj l with
  | Observer.Done l' =>
      ∃ l1 l2, l = l1 ++ obj :: l2 ∧ l' = l1 ++ l2 ∧ obj ∉ l1
  | Observer.Raised e => e = Observer.ValueError ∧ obj ∉ l
  end.
Proof.
  induction l as [|y l IH]; cbn.
  - split; [done|]. apply not_elem_of_nil.
  - destruct (decide (y = obj)) as [->|Hne].
    + exists [], l. split_and!; [done..|]. apply not_elem_of_nil.
    + destruct (Observer.list_remove obj l) as [l'|e].
      * destruct IH as (l1 & l2 & -> & -> & Hnot).
        exists (y :: l1), l2. split_and!; [done..|].
        apply not_elem_of_cons. by split.
      * destruct IH as [-> Hnot]. split; [done|].
        apply not_elem_of_cons. by split.
Qed.

(** [notify] on a subject that has the aspect ['all']. *)
Lemma notify_eq observers (aspect : string) (value : V) l_all :
  observers !! "all"%string = Some l_all →
  Observer.notify aspect value observers
  = (match observers !! aspect with
     | Some _ => observers
     | None => <[aspect := []]> observers
     end,
     Observer.updates aspect value (default [] (observers !! aspect))
       ++ Observer.updates aspect value l_all,
     None).
Proof.
  intros Hall. unfold Observer.notify, Observer.getlist, Observer.add_aspect.
  destruct (observers !! aspect) as [l|] eqn:Ha; cbn [fst snd default].
  - by rewrite Hall.
  - rewrite lookup_insert_eq. cbn [fst snd].
    rewrite lookup_insert_ne by (intros ->; congruence).
    by rewrite Hall.
Qed.

(** X16.  On a subject that has the aspect ['all'], [notify] raises
    nothing and calls [update], with the aspect and the value given, first
    on the observers of the aspect in the order they were added, then on
    the observers of ['all']; nobody else is called.  An aspect not yet
    known is added with no observers; otherwise the dict is unchanged. *)
Theorem notify_calls_aspect_then_all observers (aspect : string) (value : V) l_all :
  observers !! "all"%string = Some l_all →
  let out := Observer.notify aspect value observers in
  out.2 = None
  ∧ out.1.2
    = ((λ o, (o, aspect, value)) <$> default [] (observers !! aspect))
      ++ ((λ o, (o, aspect, value)) <$> l_all)
  ∧ (∀ o a v, (o, a, v) ∈ out.1.2 →
       a = aspect ∧ v = value
       ∧ (o ∈ default [] (observers !! aspect) ∨ o ∈ l_all))
  ∧ out.1.1 !! aspect = Some (default [] (observers !! aspect))
  ∧ (∀ a, a ≠ aspect → out.1.1 !! a = observers !! a).
Proof.
  intros Hall out. subst out. rewrite (notify_eq _ _ _ _ Hall). cbn [fst snd].
  split_and!; [done|done| | |].
  - intros o a v. unfold Observer.updates.
    rewrite elem_of_app, !list_elem_of_fmap.
    intros [(o' & [= -> -> ->] & Hin)|(o' & [= -> -> ->] & Hin)]; auto.
  - destruct (observers !! aspect) eqn:Ha; [done|]. by rewrite lookup_insert_eq.
  - intros a Hne. destruct (observers !! aspect); [done|].
    by rewrite lookup_insert_ne.
Qed.

(** X17.  A notification under the aspect ['all'] itself reaches every
    observer of ['all'] twice: once in the loop of the aspect and once in
    the loop of ['all']. *)
Theorem notify_all_calls_twice observers (value : V) l_all :
  observers !! "all"%string = Some l_all →
  Observer.notify "all" value observers
  = (observers,
     ((λ o, (o, "all"%string, value)) <$> l_all)
       ++ ((λ o, (o, "all"%string, value)) <$> l_all),
     None).
Proof. intros Hall. rewrite (notify_eq _ _ _ _ Hall). by rewrite Hall. Qed.

Lemma subject_step_all observers (o : Observer.subject_op (O := O) (V := V)) :
  is_Some (observers !! "all"%string) →
  is_Some (Observer.subject_step observers o !! "all"%string).
Proof.
  intros [l_all Hall]. destruct o as [obj aspect|obj aspect|aspect value|aspect];
    cbn [Observer.subject_step].
  - unfold Observer.add_observer, Observer.getlist, Observer.add_aspect.
    destruct aspect as [a|].
    + destruct (observers !! a) as [l|] eqn:Ha.
      * rewrite Ha. rewrite lookup_insert. case_decide; rewrite ?Hall; eauto.
      * rewrite lookup_insert_eq. rewrite !lookup_insert. repeat case_decide; rewrite ?Hall; eauto.
    + rewrite Hall. rewrite lookup_insert_eq. eauto.
  - unfold Observer.remove_observer, Observer.getlist.
    set (a := match aspect with Some a => a | None => "all"%string end).
    destruct (observers !! a) as [l|] eqn:Ha; [|by rewrite Hall; eauto].
    destruct (Observer.list_remove obj l); [|by rewrite Hall; eauto].
    rewrite lookup_insert. case_decide; rewrite ?Hall; eauto.
  - rewrite (notify_eq _ _ _ _ Hall). cbn [fst].
    destruct (observers !! aspect); [by rewrite Hall; eauto|].
    rewrite lookup_insert. case_decide; rewrite ?Hall; eauto.
  - unfold Observer.add_aspect. rewrite lookup_insert. case_decide; rewrite ?Hall; eauto.
Qed.

(** X18.  A subject keeps the aspect ['all'] from its construction on,
    whatever is called on it; so [notify] never raises, and
    [add_observer] never raises either. *)
Theorem subject_keeps_all (ops : list (Observer.subject_op (O := O) (V := V))) :
  let observers := foldl Observer.subject_step Observer.__init__ ops in
  is_Some (observers !! "all"%string)
  ∧ (∀ aspect (value : V), (Observer.notify aspect value observers).2 = None)
  ∧ (∀ obj aspect, ∃ observers',
       Observer.add_observer obj aspect observers = Observer.Done observers').
Proof.
  intros observers.
  assert (is_Some (observers !! "all"%string)) as [l_all Hall].
  { subst observers.
    assert (is_Some ((Observer.__init__ (O := O)) !! "all"%string)) as Hinit.
    { unfold Observer.__init__. rewrite lookup_singleton_eq. eauto. }
    revert Hinit. generalize (Observer.__init__ (O := O)).
    induction ops as [|o ops IH]; intros obs Hobs; [done|].
    cbn [foldl]. apply IH. by apply subject_step_all. }
  split_and!; [by eauto| |].
  - intros aspect value. by rewrite (notify_eq _ _ _ _ Hall).
  - intros obj aspect. unfold Observer.add_observer, Observer.getlist, Observer.add_aspect.
    destruct aspect as [a|].
    + destruct (observers !! a) as [l|] eqn:Ha.
      * rewrite Ha. eauto.
      * rewrite lookup_insert_eq. eauto.
    + rewrite Hall. eauto.
Qed.

(** X19.  Adding an observer that is not yet registered under an aspect
    the subject knows, and removing it again, gives back the same dict of
    observers. *)
Theorem add_then_remove_observer observers obj (aspect : option string) l :
  observers !! default "all"%string aspect = Some l →
  obj ∉ l →
  ∃ observers',
    Observer.add_observer obj aspect observers = Observer.Done observers'
    ∧ observers' !! default "all"%string aspect = Some (l ++ [obj])
    ∧ Observer.remove_observer obj aspect observers' = Observer.Done observers.
Proof.
  intros Hl Hnot.
  exists (<[default "all"%string aspect := l ++ [obj]]> observers).
  unfold Observer.add_observer, Observer.remove_observer, Observer.getlist.
  destruct aspect as [a|];
    [change (default "all"%string (Some a)) with a in *
    |change (default "all"%string None) with "all"%string in *];
    rewrite !Hl, !lookup_insert_eq, list_remove_snoc_fresh by done;
    (split_and!; [done..|]);
    by rewrite insert_insert_eq, insert_id.
Qed.

(** X20.  [remove_observer] raises [KeyError] exactly when the subject does
    not know the aspect, and [ValueError] exactly when it knows the aspect
    and the observer is not registered under it; otherwise it takes the
    first registration of the observer out of the list of the aspect and
    leaves the rest in place. *)
Theorem remove_observer_cases observers obj (aspect : option string) :
  let a := default "all"%string aspect in
  (Observer.remove_observer obj aspect observers = Observer.Raised (Observer.KeyError a)
   ↔ observers !! a = None)
  ∧ (Observer.remove_observer obj aspect observers = Observer.Raised Observer.ValueError
     ↔ (∃ l, observers !! a = Some l ∧ obj ∉ l))
  ∧ (∀ observers',
       Observer.remove_observer obj aspect observers = Observer.Done observers'
       ↔ (∃ l1 l2, observers !! a = Some (l1 ++ obj :: l2) ∧ (obj ∉ l1)
            ∧ observers' = <[a := l1 ++ l2]> observers)).
Proof.
  intros a. unfold Observer.remove_observer, Observer.getlist.
  assert (match aspect with Some a => a | None => "all"%string end = a) as ->
    by (subst a; by destruct aspect).
  destruct (observers !! a) as [l|] eqn:Ha.
  - pose proof (list_remove_spec obj l) as Hspec.
    destruct (Observer.list_remove obj l) as [l'|e].
    + destruct Hspec as (l1 & l2 & -> & -> & Hnot). split_and!.
      * done.
      * split; [done|]. intros (l & [= <-] & Hl). exfalso. apply Hl.
        apply elem_of_app. right. by left.
      * intros observers'. split.
        -- intros [= <-]. by exists l1, l2.
        -- intros (l1' & l2' & [= Heq] & Hnot' & ->). do 2 f_equal.
           assert (l1 = l1' ∧ l2 = l2') as [-> ->]; [|done].
           clear -Heq Hnot Hnot'. revert l1' Heq Hnot'.
           induction l1 as [|y l1 IH]; intros [|y' l1'] Heq Hnot'.
           ++ by injection Heq.
           ++ injection Heq as -> _. exfalso. apply Hnot'. by left.
           ++ injection Heq as -> _. exfalso. apply Hnot. by left.
           ++ injection Heq as -> Heq.
              apply not_elem_of_cons in Hnot as [_ Hnot].
              apply not_elem_of_cons in Hnot' as [_ Hnot'].
              by destruct (IH Hnot l1' Heq Hnot') as [-> ->].
    + destruct Hspec as [-> Hnot]. split_and!.
      * done.
      * split; [by eauto|done].
      * intros observers'. split; [done|].
        intros (l1 & l2 & [= ->] & _). exfalso. apply Hnot.
        apply elem_of_app. right. by left.
  - split_and!.
    + done.
    + split; [done|]. by intros (l & [=] & _).
    + intros observers'. split; [done|]. by intros (l1 & l2 & [=] & _).
Qed.

End SubjectFacts.

Lemma notify_calls_aspect_then_all_witness :
  (Observer.notify "CELL_ON" 7%nat
     (<["CELL_ON"%string := [1%nat; 2%nat]]> (<["all"%string := [3%nat]]> ∅))).1.2
  = [(1%nat, "CELL_ON"%string, 7%nat); (2%nat, "CELL_ON"%string, 7%nat);
     (3%nat, "CELL_ON"%string, 7%nat)].
Proof.
  destruct (notify_calls_aspect_then_all
    (<["CELL_ON"%string := [1%nat; 2%nat]]> (<["all"%string := [3%nat]]> ∅))
    "CELL_ON" 7%nat [3%nat]) as (_ & Hcalls & _); [by vm_compute|].
  rewrite Hcalls. by vm_compute.
Defined.

Lemma notify_all_calls_twice_witness :
  Observer.notify "all" 7%nat (<["all"%string := [3%nat]]> ∅)
  = (<["all"%string := [3%nat]]> ∅,
     [(3%nat, "all"%string, 7%nat); (3%nat, "all"%string, 7%nat)], None).
Proof.
  apply (notify_all_calls_twice (<["all"%string := [3%nat]]> ∅) 7%nat [3%nat]).
  by vm_compute.
Defined.

Lemma add_then_remove_observer_witness :
  ∃ observers',
    Observer.add_observer 5%nat (Some "CELL_ON"%string)
      (<["CELL_ON"%string := [1%nat]]> (Observer.__init__ (O := nat)))
    = Observer.Done observers'
    ∧ Observer.remove_observer 5%nat (Some "CELL_ON"%string) observers'
      = Observer.Done (<["CELL_ON"%string := [1%nat]]> (Observer.__init__ (O := nat))).
Proof.
  destruct (add_then_remove_observer
    (<["CELL_ON"%string := [1%nat]]> (Observer.__init__ (O := nat)))
    5%nat (Some "CELL_ON"%string) [1%nat]) as (obs' & Hadd & _ & Hrem).
  - by vm_compute.
  - intros Hin%list_elem_of_singleton. discriminate Hin.
  - by exists obs'.
Defined.

(** ** Observers that mirror the game *)

Lemma movement_done_log (m : Move) (g : SenkuGame) :
  Forall (λ ev, (∃ st, ev = UNDO_STACK st) ∨ (∃ n, ev = GAME_OVER n))
    (log_of (movement_done m g))
  ∧ foldl mirror_stack (_undo_stack g) (log_of (movement_done m g))
    = _undo_stack (state_of (movement_done m g)).
Proof.
  rewrite movement_done_eq. destruct (push _ _) as [st'|e]; [|by split].
  cbn zeta. destruct (_with_tracking g); [|split; [|done]].
  - rewrite check_end_eq.
    destruct (scan_items _ _ _ _) as [[n|]|e]; cbn [log_of state_of fst snd].
    + split; [|done]. repeat (apply Forall_cons; split; [by eauto|]).
      by apply Forall_nil.
    + split; [|done]. repeat (apply Forall_cons; split; [by eauto|]).
      by apply Forall_nil.
    + split; [|done]. repeat (apply Forall_cons; split; [by eauto|]).
      by apply Forall_nil.
  - cbn. apply Forall_cons. split; [by eauto|]. by apply Forall_nil.
Qed.

Lemma mirror_board_other (b : gmap cell bool) (log : list event) :
  Forall (λ ev, (∃ st, ev = UNDO_STACK st) ∨ (∃ n, ev = GAME_OVER n)) log →
  foldl mirror_board b log = b.
Proof.
  induction 1 as [|ev log [[st ->]|[n ->]] _ IH]; [done|..]; by cbn.
Qed.

Lemma mirror_board_replay (b : gmap cell bool) (ks : list cell) :
  Forall (λ k, is_Some (b !! k)) ks →
  foldl mirror_board b (cell_event b <$> ks) = b.
Proof.
  induction 1 as [|k ks [v Hk] _ IH]; [done|].
  cbn [fmap list_fmap foldl]. unfold cell_event at 1. rewrite Hk.
  destruct v; cbn [mirror_board]; by rewrite insert_id.
Qed.

Lemma mirror_stack_cells (st : DynamicBoundedStack Move) (log : list event) :
  Forall (λ ev, ∀ st', ev ≠ UNDO_STACK st') log →
  foldl mirror_stack st log = st.
Proof.
  induction 1 as [|ev log Hev _ IH]; [done|].
  cbn [foldl]. destruct ev; cbn [mirror_stack]; [done|done| |done].
  by destruct (Hev st0).
Qed.

Lemma board_keys_Forall (b : gmap cell bool) :
  Forall (λ k, is_Some (b !! k)) (map_to_list b).*1.
Proof.
  apply Forall_forall. intros k ([k' v] & -> & Hkv)%list_elem_of_fmap.
  apply elem_of_map_to_list in Hkv. by exists v.
Qed.

Lemma restart_mirrors (g : SenkuGame) :
  foldl mirror_board (_board g) (log_of (restart g)) = _board (state_of (restart g))
  ∧ foldl mirror_stack (_undo_stack g) (log_of (restart g))
    = _undo_stack (state_of (restart g)).
Proof.
  unfold restart, fill_board. rewrite range_7.
  cbv [for_each bind fill_cell empty_cell board_setitem notify ret get_undo_stack
       put_undo_stack _board _undo_stack _with_tracking app log_of state_of
       fst snd foldl mirror_board mirror_stack].
  by split.
Qed.

Lemma perform_mirrors (g : SenkuGame) (o : op) :
  foldl mirror_board (_board g) (log_of (perform o g))
  = _board (state_of (perform o g))
  ∧ foldl mirror_stack (_undo_stack g) (log_of (perform o g))
    = _undo_stack (state_of (perform o g)).
Proof.
  destruct o as [orig dest| | |track| |]; cbn [perform].
  - destruct (check_distance orig dest) eqn:Hd;
      [|by rewrite Move_execute_rejected by auto].
    destruct (board_check_cells (_board g) orig dest) as [[]|e] eqn:Hc;
      [|by rewrite Move_execute_rejected by auto
       |by rewrite (Move_execute_raises g orig dest e)].
    rewrite (Move_execute_legal g orig dest (conj Hd Hc)).
    cbn [log_of fst snd]. rewrite !foldl_app.
    set (g1 := mkGame _ _ _).
    destruct (movement_done_log (Move_init orig dest) g1) as [Hlog Hst].
    split.
    + cbn [foldl mirror_board]. rewrite (mirror_board_other _ _ Hlog).
      symmetry. exact (movement_done_board _ _).
    + cbn [foldl mirror_stack]. exact Hst.
  - rewrite undo_eq. by destruct (list_pop _) as [[m d]|e].
  - apply restart_mirrors.
  - done.
  - rewrite get_all_changes_eq. cbn [log_of state_of fst snd foldl mirror_board mirror_stack].
    split.
    + apply mirror_board_replay, board_keys_Forall.
    + apply mirror_stack_cells, Forall_forall.
      intros ev (k & -> & _)%list_elem_of_fmap st'. unfold cell_event.
      by destruct (_board g !! k) as [[]|].
  - rewrite check_end_eq. by destruct (scan_items _ _ _ _) as [[n|]|e].
Qed.

(** X21.  The board can be followed from the notifications alone: setting
    a cell on [CELL_ON] and clearing it on [CELL_OFF], in the order the
    notifications of a call are sent, turns the board before the call into
    the board after it.  This holds for every call on every game. *)
Theorem cell_notifications_mirror_board (g : SenkuGame) (o : op) :
  foldl mirror_board (_board g) (log_of (perform o g))
  = _board (state_of (perform o g)).
Proof. apply perform_mirrors. Qed.

(** X22.  The undo stack can be followed as well: after every call the
    stack of the game is the one last notified under [UNDO_STACK] during
    the call, or the stack before the call when there was no such
    notification. *)
Theorem stack_notifications_mirror_stack (g : SenkuGame) (o : op) :
  foldl mirror_stack (_undo_stack g) (log_of (perform o g))
  = _undo_stack (state_of (perform o g)).
Proof. apply perform_mirrors. Qed.

Lemma button_after_in_sync (log : list event) : ∀ enabled st,
  enabled = UndoButton_update st →
  button_after enabled log = UndoButton_update (foldl mirror_stack st log).
Proof.
  unfold button_after.
  induction log as [|ev log IH]; intros enabled st Hsync; [done|].
  cbn [foldl]. destruct ev; cbn [mirror_stack]; by apply IH.
Qed.

(** X23.  The undo button follows the undo stack.  After the replay that
    opens the user interface the button is enabled exactly when the stack
    holds a move, whatever its state was; every later call keeps it so;
    and [undo], which only an enabled button can call, then returns
    without raising. *)
Theorem undo_button_follows_stack (g : SenkuGame) (o : op) (enabled : bool) :
  button_after enabled (log_of (perform ReplayAllState g))
  = negb (is_empty (_undo_stack g))
  ∧ (enabled = negb (is_empty (_undo_stack g)) →
     button_after enabled (log_of (perform o g))
     = negb (is_empty (_undo_stack (state_of (perform o g))))
     ∧ (enabled = true → result_of (perform Undo g) = Ok tt)).
Proof.
  assert (∀ st, UndoButton_update st = negb (is_empty st)) as Hupd.
  { intros st. unfold UndoButton_update. by destruct (is_empty st). }
  split.
  - cbn [perform]. rewrite get_all_changes_eq. cbn [log_of fst snd].
    unfold button_after. cbn [foldl]. fold (button_after (UndoButton_update (_undo_stack g))
      (cell_event (_board g) <$> (map_to_list (_board g)).*1)).
    rewrite (button_after_in_sync _ _ (_undo_stack g)) by done.
    rewrite mirror_stack_cells; [apply Hupd|].
    apply Forall_forall. intros ev (k & -> & _)%list_elem_of_fmap st'.
    unfold cell_event. by destruct (_board g !! k) as [[]|].
  - intros Hsync. split.
    + rewrite (button_after_in_sync _ _ (_undo_stack g)) by by rewrite Hupd.
      rewrite Hupd. f_equal. f_equal. apply perform_mirrors.
    + intros ->. cbn [perform]. rewrite undo_eq.
      unfold is_empty in Hsync.
      destruct (_data (_undo_stack g)) as [|y l _] using rev_ind.
      * done.
      * by rewrite list_pop_snoc.
Qed.

(** ** Attempts between cells of the board *)

Lemma attempt_on_board_Ok (g : SenkuGame) (orig dest : cell) :
  game_inv g → orig ∈ cross_cells → dest ∈ cross_cells →
  result_of (perform (AttemptMove orig dest) g) = Ok tt.
Proof.
  intros Hg Ho Hde. cbn [perform]. pose proof (inv_dom g Hg) as Hdom.
  destruct (check_distance orig dest) eqn:Hd;
    [|by rewrite Move_execute_rejected by auto].
  destruct (board_check_cells_total (_board g) Hdom orig dest) as [[] Hc];
    [by rewrite Hdom..|done| |].
  - destruct (Move_execute_legal_inv g orig dest Hg (conj Hd Hc))
      as (st' & more & _ & -> & _). done.
  - by rewrite Move_execute_rejected by auto.
Qed.

(** ** The board area of the user interface *)

Lemma div_40_range (x k : Z) : x / 40 = k ↔ 40 * k ≤ x < 40 * k + 40.
Proof.
  split.
  - intros <-. pose proof (Z.div_mod x 40). pose proof (Z.mod_pos_bound x 40). lia.
  - intros Hx. symmetry. apply (Z.div_unique x 40 k (x - 40 * k)); lia.
Qed.

(** X24.  On the board of a game reached from a new game,
    [get_position_from_pixels] answers a cell exactly for the pixels that
    lie in the selection rectangle drawn for that cell (its right and
    lower border excluded) when the cell is one of the cross, and [None]
    for every other pixel.  The circle drawn for a cell lies inside the
    rectangle of the cell, so a click on a peg selects its cell. *)
Theorem pixels_select_the_cell_drawn (ops : list op) (pos : cell) (x y : Z) :
  let b := _board (run_ops ops new_game) in
  let rect := draw_sel_rect_from_pos pos in
  let oval := draw_circle_from_pos pos in
  0 ≤ x → 0 ≤ y →
  (get_position_from_pixels b x y = Some pos
   ↔ in_cross pos = true
     ∧ rect.1.1.1 ≤ x < rect.1.2 ∧ rect.1.1.2 ≤ y < rect.2)
  ∧ (get_position_from_pixels b x y = None
     ↔ in_cross (y / BOARD_RECTANGLE_SIZE, x / BOARD_RECTANGLE_SIZE) = false)
  ∧ (rect.1.1.1 < oval.1.1.1 ∧ oval.1.2 < rect.1.2
     ∧ rect.1.1.2 < oval.1.1.2 ∧ oval.2 < rect.2)
  ∧ (in_cross pos = true →
     oval.1.1.1 ≤ x ≤ oval.1.2 → oval.1.1.2 ≤ y ≤ oval.2 →
     get_position_from_pixels b x y = Some pos).
Proof.
  intros b rect oval Hx0 Hy0. subst rect oval.
  assert (∀ p, is_Some (b !! p) ↔ in_cross p = true) as Hkeys.
  { intros p. subst b.
    destruct (run_ops_inv ops new_game new_game_inv) as [Hdom _ _].
    by rewrite <-elem_of_dom, Hdom, elem_of_cross_cells. }
  destruct pos as [r c].
  unfold get_position_from_pixels, draw_sel_rect_from_pos, draw_circle_from_pos,
    DIST, DIAMETER, BOARD_RECTANGLE_SIZE. cbn [fst snd].
  assert (get_cases : ∀ r' c', y / 40 = r' → x / 40 = c' →
    (if decide (is_Some (b !! (y / 40, x / 40))) then Some (y / 40, x / 40) else None)
    = if in_cross (r', c') then Some (r', c') else None).
  { intros r' c' <- <-. case_decide as Hin; apply Hkeys in Hin || (
      apply (not_iff_compat (Hkeys _)) in Hin); [by rewrite Hin|].
    by destruct (in_cross _). }
  rewrite (get_cases _ _ eq_refl eq_refl).
  split; [|split; [|split]].
  - split.
    + destruct (in_cross (y / 40, x / 40)) eqn:Hin; [|done].
      intros [= Hr Hc]. rewrite <-Hr, <-Hc. split; [done|].
      pose proof (proj1 (div_40_range x _) eq_refl).
      pose proof (proj1 (div_40_range y _) eq_refl). lia.
    + intros (Hin & Hx & Hy).
      assert (x / 40 = c) as -> by (apply div_40_range; lia).
      assert (y / 40 = r) as -> by (apply div_40_range; lia).
      by rewrite Hin.
  - by destruct (in_cross (y / 40, x / 40)).
  - lia.
  - intros Hin Hx Hy.
    assert (x / 40 = c) as -> by (apply div_40_range; lia).
    assert (y / 40 = r) as -> by (apply div_40_range; lia).
    by rewrite Hin.
Qed.

(** The centre of the canvas is a pixel of the cell (3,3). *)
Lemma pixels_select_the_cell_drawn_witness :
  get_position_from_pixels (_board (run_ops [] new_game)) 125 130 = Some (3, 3).
Proof.
  destruct (pixels_select_the_cell_drawn [] (3, 3) 125 130) as (Hsel & _);
    [lia | lia |].
  apply Hsel. by vm_compute.
Defined.

(** X25.  Two clicks in the board area never make the game raise: the
    positions [get_position_from_pixels] answers are cells of the board,
    and the move [left_button_pressed] attempts between them returns
    normally. *)
Theorem clicks_never_raise (ops : list op) (x1 y1 x2 y2 : Z) (p1 p2 : cell) :
  let g := run_ops ops new_game in
  0 ≤ x1 → 0 ≤ y1 → 0 ≤ x2 → 0 ≤ y2 →
  get_position_from_pixels (_board g) x1 y1 = Some p1 →
  get_position_from_pixels (_board g) x2 y2 = Some p2 →
  in_cross p1 = true ∧ in_cross p2 = true
  ∧ result_of (perform (AttemptMove p1 p2) g) = Ok tt.
Proof.
  intros g _ _ _ _ H1 H2.
  assert (game_inv g) as Hg by apply run_ops_inv, new_game_inv.
  assert (∀ x y p, get_position_from_pixels (_board g) x y = Some p →
            p ∈ cross_cells) as Hpos.
  { intros x y p. unfold get_position_from_pixels. case_decide as Hin; [|done].
    intros [= <-]. rewrite <-(inv_dom g Hg). by apply elem_of_dom. }
  apply Hpos in H1, H2. split_and!; [by apply elem_of_cross_cells..|].
  by apply attempt_on_board_Ok.
Qed.

Lemma clicks_never_raise_witness :
  result_of (perform (AttemptMove (1, 3) (3, 3)) (run_ops [] new_game)) = Ok tt.
Proof.
  apply (clicks_never_raise [] 130 50 125 125 (1, 3) (3, 3));
    [lia | lia | lia | lia | by vm_compute | by vm_compute].
Defined.

(** ** The observers of the user interface *)

(** X26.  With the registrations the user interface makes when it is
    built, every notification of the game reaches exactly one observer:
    the board area for [CELL_ON] and [CELL_OFF], the undo button for
    [UNDO_STACK], the window for [GAME_OVER]; the dict of observers stays
    as it is and nothing is raised. *)
Theorem ui_notification_reaches_its_widget (ev : event) :
  Observer.notify (aspect_of ev) ev ui_observers
  = (ui_observers,
     [(match ev with
       | CELL_ON _ | CELL_OFF _ => BoardArea
       | UNDO_STACK _ => UndoButton
       | GAME_OVER _ => UISenku
       end, aspect_of ev, ev)],
     None).
Proof. destruct ev; by vm_compute. Qed.
